(** * istio-csr: request authentication and CSR authorisation

  A shallow embedding of [pkg/server/auth.go]: the identity matcher
  [identitiesMatch] and the authorisation pipeline [authRequest].

  - Go strings are [string]s (byte sequences); Go's [<] on strings is the
    byte-wise lexicographic order [String.ltb].
  - [identitiesMatch] is modelled twice: on lists, the contents of its two
    slices, and in [Mem] on slices in memory, with [make], [copy] and the
    sorts in place; the two are shown to agree.
  - [authRequest] is a computation that returns early and records the
    calls it makes and the lines it logs.
  - [net/url], [sort], [strings], the istio [security] package, the
    [pkiutil] CSR parser and the repository's own [extensions] package and
    node authorizer are not part of [auth.go]; what it uses of them is
    taken as section variables or modelled by their documented
    behaviour. *)

From stdpp Require Import gmap list strings sorting.

Open Scope string_scope.

(** ** Go's string order *)

Lemma ltb_negb_leb (s t : string) : String.ltb s t = negb (String.leb t s).
Proof.
  unfold String.ltb, String.leb. rewrite (String.compare_antisym s t).
  by destruct (String.compare t s).
Qed.

Lemma ltb_false_le (s t : string) : String.ltb s t = false ↔ String.le t s.
Proof.
  rewrite ltb_negb_leb. unfold String.le.
  destruct (String.leb t s); simpl; split; intros; try done.
Qed.

Lemma ltb_true_le (s t : string) : String.ltb s t = true → String.le s t.
Proof.
  intros H. destruct (total String.le s t) as [|Hts]; [done|].
  apply ltb_false_le in Hts. congruence.
Qed.

(** ** The [sort] package, by its contract

  [sort.Strings] sorts a slice of strings in increasing order.
  [sort.SliceStable(x, less)] sorts [x] by [less], keeping elements that
  [less] does not separate in their original order.  Both are modelled by
  the stable insertion sort that the library runs on short slices: each
  next element moves left past the elements that are greater than it.
  On longer slices the library compares and exchanges in another order;
  the result is the same, since it is determined by the contract
  ([sort_Strings_unique], [insertion_sort_unique]). *)

Section sort.
Context {T : Type} (less : T → T → bool).

Fixpoint insert_sorted (x : T) (l : list T) : list T :=
  match l with
  | [] => [x]
  | y :: l' => if less x y then x :: l else y :: insert_sorted x l'
  end.

Definition insertion_sort (l : list T) : list T :=
  fold_left (λ acc x, insert_sorted x acc) l [].
End sort.

(** [sort.Strings(x)] *)
Definition sort_Strings (x : list string) : list string :=
  insertion_sort String.ltb x.

(** [sort.SliceStable(x, less)]; the closure [less] of the source reads the
    slice by index, here it takes the two elements. *)
Definition sort_SliceStable {T} (x : list T) (less : T → T → bool) : list T :=
  insertion_sort less x.

(** [strings.Join(elems, sep)] *)
Fixpoint strings_Join (elems : list string) (sep : string) : string :=
  match elems with
  | [] => ""
  | [e] => e
  | e :: rest => e +:+ sep +:+ strings_Join rest sep
  end.

Example strings_Join_two : strings_Join ["a"; "b"] "," = "a,b".
Proof. reflexivity. Qed.

(** ** The identity matcher *)

Section matcher.
(** [url.URL] with its [String()] method.  The slice elements are
    [*url.URL] pointers produced by the X.509 parser, which are never nil:
    an element of type [URL] stands for such a pointer. *)
Context {URL : Type} (URL_String : URL → string).

(** The final loop of [identitiesMatch]:
    [for i, v := range aa { if bb[i].String() != v { return false } }]
    followed by [return true].  [i] is the index of the head of [aa].
    The loop runs on slices of equal length, where [bb[i]] is in range; out
    of range Go panics, which the model in memory [Mem.identitiesMatch]
    has and is shown never to do ([identitiesMatch_inputs_unchanged]). *)
Fixpoint range_loop (i : nat) (aa : list string) (bb : list URL) : bool :=
  match aa with
  | [] => true
  | v :: aa' =>
      match bb !! i with
      | Some u =>
          if negb (String.eqb (URL_String u) v) then false
          else range_loop (S i) aa' bb
      | None => false
      end
  end.

(** [identitiesMatch] on the contents of its two slices. *)
Definition identitiesMatch (a : list string) (b : list URL) : bool :=
  if negb (length a =? length b)%nat then false
  else
    (* aa, bb: copies of a and b *)
    let aa := a in
    let bb := b in
    let aa := sort_Strings aa in
    let bb := sort_SliceStable bb
                (λ x y, String.ltb (URL_String x) (URL_String y)) in
    range_loop 0 aa bb.
End matcher.

(** URIs given by their canonical strings *)
Example identitiesMatch_order :
  identitiesMatch id ["b"; "a"] ["a"; "b"] = true.
Proof. reflexivity. Qed.

Example identitiesMatch_short :
  identitiesMatch id ["a"] [] = false ∧ identitiesMatch id [] ["a"] = false.
Proof. split; reflexivity. Qed.

Example identitiesMatch_dup :
  identitiesMatch id ["a"; "a"] ["a"] = false.
Proof. reflexivity. Qed.

Example identitiesMatch_case :
  identitiesMatch id ["spiffe://c/ns/d/sa/e"] ["spiffe://c/ns/d/sa/E"] = false.
Proof. reflexivity. Qed.


(** Exchanging two neighbours of a list, as two updates by index. *)
Lemma swap_adjacent {T} (pre : list T) (y x : T) (post : list T) :
  <[length pre := x]> (<[S (length pre) := y]> (pre ++ y :: x :: post)%list)
  = (pre ++ x :: y :: post)%list.
Proof. induction pre as [|z pre IH]; simpl; [done|]. by rewrite IH. Qed.

(** ** Facts about the sort model *)

Section sort_facts.
Context {T : Type} (key : T → string).

(** The order the slice is sorted by: the closure
    [func(i, j) bool { return key(x[i]) < key(x[j]) }]. *)
Definition less_by (x y : T) : bool := String.ltb (key x) (key y).

(** [x] may stand before [y] in a slice sorted by [less_by]. *)
Definition le_by (x y : T) : Prop := String.le (key x) (key y).

Lemma le_by_trans : Transitive le_by.
Proof. intros x y z. unfold le_by. apply transitivity. Qed.
#[local] Existing Instance le_by_trans.

Lemma insert_sorted_perm (x : T) (l : list T) :
  insert_sorted less_by x l ≡ₚ x :: l.
Proof.
  induction l as [|y l IH]; simpl; [done|].
  destruct (less_by x y); [done|].
  rewrite IH. apply Permutation_swap.
Qed.

Lemma fold_insert_perm (l acc : list T) :
  fold_left (λ acc x, insert_sorted less_by x acc) l acc ≡ₚ (acc ++ l)%list.
Proof.
  revert acc. induction l as [|x l IH]; intros acc; simpl.
  - by rewrite app_nil_r.
  - rewrite IH, insert_sorted_perm. simpl. apply Permutation_middle.
Qed.

Lemma insertion_sort_perm (l : list T) : insertion_sort less_by l ≡ₚ l.
Proof. unfold insertion_sort. by rewrite fold_insert_perm. Qed.

Lemma insertion_sort_length (l : list T) :
  length (insertion_sort less_by l) = length l.
Proof. by rewrite insertion_sort_perm. Qed.

Lemma insert_sorted_HdRel (x y : T) (l : list T) :
  le_by y x → HdRel le_by y l → HdRel le_by y (insert_sorted less_by x l).
Proof.
  intros Hyx Hhd. destruct l as [|z l]; simpl; [by constructor|].
  destruct (less_by x z); constructor; [done|]. by inversion Hhd.
Qed.

Lemma insert_sorted_Sorted (x : T) (l : list T) :
  Sorted le_by l → Sorted le_by (insert_sorted less_by x l).
Proof.
  induction 1 as [|y l Hl IH Hhd]; simpl.
  - by repeat constructor.
  - destruct (less_by x y) eqn:Hlt.
    + constructor; [by constructor|]. constructor. by apply ltb_true_le.
    + constructor; [done|].
      apply insert_sorted_HdRel; [|done]. by apply ltb_false_le.
Qed.

Lemma fold_insert_Sorted (l acc : list T) :
  Sorted le_by acc →
  Sorted le_by (fold_left (λ acc x, insert_sorted less_by x acc) l acc).
Proof.
  revert acc. induction l as [|x l IH]; intros acc Hacc; simpl; [done|].
  by apply IH, insert_sorted_Sorted.
Qed.

Lemma insertion_sort_Sorted (l : list T) :
  Sorted le_by (insertion_sort less_by l).
Proof. apply fold_insert_Sorted. constructor. Qed.

(** Sorting by a key and then reading the keys is sorting the keys. *)
Lemma insert_sorted_keys (x : T) (l : list T) :
  key <$> insert_sorted less_by x l
  = insert_sorted String.ltb (key x) (key <$> l).
Proof.
  induction l as [|y l IH]; csimpl; [done|].
  unfold less_by at 1. destruct (String.ltb (key x) (key y)); csimpl; [done|].
  by rewrite IH.
Qed.

Lemma fold_insert_keys (l acc : list T) :
  key <$> fold_left (λ acc x, insert_sorted less_by x acc) l acc
  = fold_left (λ acc x, insert_sorted String.ltb x acc) (key <$> l)
      (key <$> acc).
Proof.
  revert acc. induction l as [|x l IH]; intros acc; csimpl; [done|].
  by rewrite IH, insert_sorted_keys.
Qed.

Lemma insertion_sort_keys (l : list T) :
  key <$> insertion_sort less_by l = sort_Strings (key <$> l).
Proof. apply (fold_insert_keys l []). Qed.

(** Inserting into a list that ends with a greater element leaves that
    element last. *)
Lemma insert_sorted_snoc_lt (x y : T) (l : list T) :
  less_by x y = true →
  insert_sorted less_by x (l ++ [y]) = (insert_sorted less_by x l ++ [y])%list.
Proof.
  intros Hlt. induction l as [|z l IH]; simpl.
  - by rewrite Hlt.
  - destruct (less_by x z); [done|]. by rewrite IH.
Qed.

(** Inserting an element that no element of the list is greater than
    puts it last. *)
Lemma insert_sorted_last (x : T) (l : list T) :
  Forall (λ z, less_by x z = false) l →
  insert_sorted less_by x l = (l ++ [x])%list.
Proof.
  induction 1 as [|z l Hz _ IH]; simpl; [done|]. by rewrite Hz, IH.
Qed.

(** Stability: elements with the same key keep their original order. *)
Definition has_key (k : string) (x : T) : bool := String.eqb (key x) k.

Lemma filter_has_key_above (k : string) (l : list T) :
  Forall (λ y, String.ltb k (key y) = true) l →
  List.filter (has_key k) l = [].
Proof.
  induction 1 as [|y l Hy _ IH]; simpl; [done|].
  rewrite IH. unfold has_key.
  destruct (String.eqb_spec (key y) k) as [<-|]; [|done].
  rewrite ltb_negb_leb in Hy. set (k := key y) in *.
  assert (String.le k k) as Hk by done. unfold String.le in Hk.
  by destruct (String.leb k k).
Qed.

Lemma insert_sorted_stable (k : string) (x : T) (l : list T) :
  Sorted le_by l →
  List.filter (has_key k) (insert_sorted less_by x l)
  = (List.filter (has_key k) l ++ List.filter (has_key k) [x])%list.
Proof.
  intros Hl. apply Sorted_StronglySorted in Hl; [|apply _].
  induction Hl as [|y l Hl IH Hy]; simpl; [done|].
  destruct (less_by x y) eqn:Hlt; simpl.
  - destruct (has_key k x) eqn:Hx; [|by rewrite app_nil_r].
    apply String.eqb_eq in Hx as <-.
    assert (List.filter (has_key (key x)) (y :: l) = []) as Hnil.
    { apply filter_has_key_above. constructor; [done|].
      eapply Forall_impl; [exact Hy|]. intros z Hz.
      unfold less_by in Hlt. rewrite ltb_negb_leb in Hlt |- *.
      destruct (String.leb (key z) (key x)) eqn:Hzx; [|done].
      assert (String.le (key y) (key x)) as Hyx.
      { etrans; [exact Hz|]. unfold String.le. by rewrite Hzx. }
      unfold String.le in Hyx. by destruct (String.leb (key y) (key x)). }
    simpl in Hnil. by rewrite Hnil.
  - rewrite IH. simpl. by destruct (has_key k y).
Qed.

Lemma fold_insert_stable (k : string) (l acc : list T) :
  Sorted le_by acc →
  List.filter (has_key k)
    (fold_left (λ acc x, insert_sorted less_by x acc) l acc)
  = (List.filter (has_key k) acc ++ List.filter (has_key k) l)%list.
Proof.
  revert acc. induction l as [|x l IH]; intros acc Hacc; simpl.
  - by rewrite app_nil_r.
  - rewrite IH by by apply insert_sorted_Sorted.
    rewrite insert_sorted_stable by done. rewrite <-app_assoc. f_equal.
    simpl. by destruct (has_key k x).
Qed.

Lemma insertion_sort_stable (k : string) (l : list T) :
  List.filter (has_key k) (insertion_sort less_by l)
  = List.filter (has_key k) l.
Proof. apply (fold_insert_stable k l []). constructor. Qed.
(** A stable sort has one possible result: a sorted arrangement of a list
    that keeps the order among the elements of every key is the list
    [insertion_sort] computes, whatever the algorithm. *)
Lemma stable_sorted_unique (l1 l2 : list T) :
  l1 ≡ₚ l2 →
  StronglySorted le_by l1 → StronglySorted le_by l2 →
  (∀ k, List.filter (has_key k) l1 = List.filter (has_key k) l2) →
  l1 = l2.
Proof.
  intros Hp H1. revert l2 Hp.
  induction H1 as [|x l1 H1 IH Hx]; intros l2 Hp H2 Hst.
  - by apply Permutation_nil in Hp.
  - destruct H2 as [|y l2 H2 Hy].
    { by apply Permutation_nil_r in Hp. }
    assert (le_by x y) as Hxy.
    { assert (y ∈ x :: l1) as [->|Hin]%elem_of_cons
        by (rewrite Hp; left).
      - unfold le_by. done.
      - rewrite Forall_forall in Hx. by apply Hx. }
    assert (le_by y x) as Hyx.
    { assert (x ∈ y :: l2) as [->|Hin]%elem_of_cons
        by (rewrite <-Hp; left).
      - unfold le_by. done.
      - rewrite Forall_forall in Hy. by apply Hy. }
    assert (key x = key y) as Hk by by apply (anti_symm String.le).
    assert (x = y) as <-.
    { specialize (Hst (key x)). simpl in Hst.
      assert (has_key (key x) x = true) as Hkx by apply String.eqb_refl.
      assert (has_key (key x) y = true) as Hky.
      { unfold has_key. rewrite Hk. apply String.eqb_refl. }
      rewrite Hkx, Hky in Hst. by injection Hst. }
    f_equal. apply IH; [by apply (inj (x ::.))|done|].
    intros k. specialize (Hst k). simpl in Hst.
    destruct (has_key k x); [by injection Hst|done].
Qed.

Lemma insertion_sort_unique (l l' : list T) :
  l' ≡ₚ l →
  Sorted le_by l' →
  (∀ k, List.filter (has_key k) l' = List.filter (has_key k) l) →
  l' = insertion_sort less_by l.
Proof.
  intros Hp Hs Hst. apply stable_sorted_unique.
  - by rewrite insertion_sort_perm.
  - apply Sorted_StronglySorted; [apply _|done].
  - apply Sorted_StronglySorted; [apply _|]. apply insertion_sort_Sorted.
  - intros k. by rewrite insertion_sort_stable.
Qed.
End sort_facts.

Lemma sort_Strings_perm (a : list string) : sort_Strings a ≡ₚ a.
Proof. apply (insertion_sort_perm id). Qed.

Lemma sort_Strings_Sorted (a : list string) : Sorted String.le (sort_Strings a).
Proof. apply (insertion_sort_Sorted id). Qed.

(** The sorted arrangement of a list of strings is unique, so every sorting
    algorithm computes [sort_Strings]. *)
Lemma sort_Strings_unique (a aa : list string) :
  aa ≡ₚ a → Sorted String.le aa → aa = sort_Strings a.
Proof.
  intros Hp Hs. apply (Sorted_unique String.le); [done|apply sort_Strings_Sorted|].
  by rewrite sort_Strings_perm.
Qed.

Lemma sort_Strings_perm_inv (a a' : list string) :
  a ≡ₚ a' → sort_Strings a = sort_Strings a'.
Proof.
  intros Hp. apply sort_Strings_unique; [|apply sort_Strings_Sorted].
  by rewrite sort_Strings_perm.
Qed.

(** ** Facts about the identity matcher *)

Section matcher_facts.
Context {URL : Type} (URL_String : URL → string).

(** The claim's reading of the matcher: equal lengths, and some sorted
    arrangement of the expected strings is pairwise equal to the canonical
    strings of some arrangement of the URIs sorted by canonical string. *)
Definition sorted_pairwise_equal (a : list string) (b : list URL) : Prop :=
  length a = length b ∧
  ∃ (aa : list string) (bb : list URL),
    aa ≡ₚ a ∧ Sorted String.le aa ∧
    bb ≡ₚ b ∧ Sorted (le_by URL_String) bb ∧
    Forall2 (λ s u, s = URL_String u) aa bb.

Lemma range_loop_spec (i : nat) (aa : list string) (bb : list URL) :
  range_loop URL_String i aa bb = true
  ↔ aa = URL_String <$> take (length aa) (drop i bb).
Proof.
  revert i. induction aa as [|v aa IH]; intros i; simpl; [done|].
  destruct (bb !! i) as [u|] eqn:Hi.
  - rewrite (drop_S _ _ _ Hi). csimpl.
    destruct (String.eqb_spec (URL_String u) v) as [->|Hne]; simpl.
    + rewrite IH. split; [by intros <-|]. by intros [=].
    + split; [done|]. intros [=]. congruence.
  - rewrite drop_ge by by apply lookup_ge_None. by rewrite take_nil.
Qed.

Lemma identitiesMatch_sorted_keys (a : list string) (b : list URL) :
  identitiesMatch URL_String a b = true
  ↔ length a = length b ∧ sort_Strings a = sort_Strings (URL_String <$> b).
Proof.
  unfold identitiesMatch, sort_SliceStable.
  destruct (Nat.eqb_spec (length a) (length b)) as [Hlen|Hlen]; simpl.
  - rewrite range_loop_spec, drop_0.
    rewrite take_ge; last first.
    { rewrite (insertion_sort_length URL_String).
      fold (less_by (@id string)). unfold sort_Strings.
      rewrite (insertion_sort_length id). lia. }
    fold (less_by URL_String). rewrite insertion_sort_keys.
    split; [by intros ->|by intros [_ ->]].
  - split; [done|by intros [? _]].
Qed.

(** The matcher decides equality of the two lists as multisets of strings. *)
Lemma identitiesMatch_perm (a : list string) (b : list URL) :
  identitiesMatch URL_String a b = true ↔ a ≡ₚ URL_String <$> b.
Proof.
  rewrite identitiesMatch_sorted_keys. split.
  - intros [_ Hs]. by rewrite <-(sort_Strings_perm a), Hs, sort_Strings_perm.
  - intros Hp. split; [|by apply sort_Strings_perm_inv].
    by rewrite Hp, length_fmap.
Qed.

Lemma sorted_pairwise_equal_perm (a : list string) (b : list URL) :
  sorted_pairwise_equal a b ↔ a ≡ₚ URL_String <$> b.
Proof.
  split.
  - intros (_ & aa & bb & Ha & _ & Hb & _ & Heq).
    assert (aa = URL_String <$> bb) as ->.
    { clear -Heq. induction Heq; csimpl; congruence. }
    by rewrite <-Ha, Hb.
  - intros Hp. split; [by rewrite Hp, length_fmap|].
    exists (sort_Strings a), (sort_SliceStable b (less_by URL_String)).
    unfold sort_SliceStable. split_and!.
    + apply sort_Strings_perm.
    + apply sort_Strings_Sorted.
    + apply insertion_sort_perm.
    + apply insertion_sort_Sorted.
    + rewrite (sort_Strings_perm_inv _ _ Hp), <-insertion_sort_keys.
      apply Forall2_fmap_l, Forall_Forall2_diag, Forall_true. done.
Qed.

Lemma identitiesMatch_perm_inv (a a' : list string) (b b' : list URL) :
  a' ≡ₚ a → b' ≡ₚ b →
  identitiesMatch URL_String a' b' = identitiesMatch URL_String a b.
Proof.
  intros Ha Hb. apply eq_true_iff_eq.
  by rewrite !identitiesMatch_perm, Ha, Hb.
Qed.

(** C1. [identitiesMatch] returns true exactly when the two lists have the
    same length and, once the expected strings are sorted lexicographically
    and the URIs are sorted by their canonical string, they agree
    position by position under exact string equality.  The result does not
    depend on the order of either list, and lists of different lengths
    never match. *)
Theorem identitiesMatch_sorted_pairwise (a : list string) (b : list URL) :
  (identitiesMatch URL_String a b = true ↔ sorted_pairwise_equal a b)
  ∧ (identitiesMatch URL_String a b = true
     ↔ length a = length b
       ∧ Forall2 (λ s u, s = URL_String u)
           (sort_Strings a) (sort_SliceStable b (less_by URL_String)))
  ∧ (∀ (a' : list string) (b' : list URL),
       a' ≡ₚ a → b' ≡ₚ b →
       identitiesMatch URL_String a' b' = identitiesMatch URL_String a b)
  ∧ (length a ≠ length b → identitiesMatch URL_String a b = false).
Proof.
  split_and!.
  - by rewrite sorted_pairwise_equal_perm, identitiesMatch_perm.
  - rewrite identitiesMatch_sorted_keys.
    unfold sort_SliceStable. rewrite <-insertion_sort_keys.
    split; intros [Hlen H]; (split; [done|]).
    + rewrite H. apply Forall2_fmap_l, Forall_Forall2_diag, Forall_true. done.
    + clear Hlen. induction H; csimpl; congruence.
  - intros a' b'. apply identitiesMatch_perm_inv.
  - intros Hlen. unfold identitiesMatch.
    by destruct (Nat.eqb_spec (length a) (length b)).
Qed.
End matcher_facts.

Lemma identitiesMatch_sorted_pairwise_witness :
  identitiesMatch id ["b"; "a"] ["a"; "b"] = true
  ∧ identitiesMatch id ["a"; "a"] ["a"] = false.
Proof.
  split.
  - rewrite (proj1 (proj2 (proj2
      (identitiesMatch_sorted_pairwise id ["a"; "b"] ["a"; "b"])))
      ["b"; "a"] ["a"; "b"]); [reflexivity|apply Permutation_swap|reflexivity].
  - apply (proj2 (proj2 (proj2
      (identitiesMatch_sorted_pairwise id ["a"; "a"] ["a"])))).
    simpl. lia.
Defined.

(** ** Laws of the identity matcher *)

Section matcher_laws.
Context {URL : Type} (URL_String : URL → string).

(** X1. The matcher decides equality of multisets: it is true exactly when the
    expected strings are a rearrangement of the canonical strings of the
    URIs, that is when every string occurs as often on one side as on the
    other.  A name repeated on one side must be repeated on the other. *)
Theorem identitiesMatch_multiset (a : list string) (b : list URL) :
  (identitiesMatch URL_String a b = true ↔ a ≡ₚ URL_String <$> b)
  ∧ (identitiesMatch URL_String a b = true
     ↔ ∀ s, count_occ String.string_dec a s
            = count_occ String.string_dec (URL_String <$> b) s).
Proof.
  split; [apply identitiesMatch_perm|].
  rewrite identitiesMatch_perm. apply Permutation_count_occ.
Qed.

(** X2. Matching parts can be left out: when a first part of the expected
    strings matches a first part of the URIs, the whole lists match
    exactly when the remaining parts do. *)
Theorem identitiesMatch_app (a1 a2 : list string) (b1 b2 : list URL) :
  identitiesMatch URL_String a1 b1 = true →
  identitiesMatch URL_String (a1 ++ a2) (b1 ++ b2)
  = identitiesMatch URL_String a2 b2.
Proof.
  intros H1%identitiesMatch_perm. apply eq_true_iff_eq.
  rewrite !identitiesMatch_perm, fmap_app, H1. split.
  - by intros ?%(inj (app _)).
  - by intros ->.
Qed.

(** X3. A single expected identity matches exactly the lists of one URI whose
    canonical string is that identity. *)
Theorem identitiesMatch_singleton (s : string) (b : list URL) :
  identitiesMatch URL_String [s] b = true
  ↔ ∃ u, b = [u] ∧ URL_String u = s.
Proof.
  rewrite identitiesMatch_perm, Permutation_singleton_l. split.
  - intros H. destruct b as [|u [|v b]]; try done.
    injection H as ->. by exists u.
  - by intros (u & -> & <-).
Qed.
End matcher_laws.

(** ** The request and its metadata *)

(** [structpb.Value]: the kinds of a protobuf value.  A number is a float64,
    kept by its bit pattern. *)
#[warnings="-register-all"]
Inductive Value : Type :=
| NullValue
| NumberValue (bits : Z)
| StringValue (s : string)
| BoolValue (b : bool)
| StructValue (fields : list (string * Value))
| ListValue (values : list Value).

(** [Value.GetStringValue()]: the string of a string value; the empty
    string for every other kind and for a nil pointer, which is what the
    lookup of an absent key of the map gives. *)
Definition GetStringValue (x : option Value) : string :=
  match x with
  | Some (StringValue s) => s
  | _ => ""
  end.

(** [structpb.Struct] *)
Record Struct : Type := { Fields : gmap string Value }.

(** [Struct.GetFields()], which is nil-safe *)
Definition GetFields (x : option Struct) : gmap string Value :=
  match x with
  | Some s => Fields s
  | None => ∅
  end.

(** [securityapi.IstioCertificateRequest] *)
Record IstioCertificateRequest : Type := {
  Csr : string;
  ValidityDuration : Z;
  Metadata : option Struct
}.

Definition GetCsr (icr : IstioCertificateRequest) : string := Csr icr.
Definition GetMetadata (icr : IstioCertificateRequest) : option Struct :=
  Metadata icr.

(** ** Early return and the record of what a run does

    [authRequest] calls collaborators and loggers and returns from many
    places.  A computation yields either the function's return value
    ([Return]) or a value to go on with ([Next]), together with the events
    it performed, in order. *)

Inductive flow (R A : Type) : Type :=
| Return (r : R)
| Next (a : A).
Arguments Return {R A} r.
Arguments Next {R A} a.

Definition M (E R A : Type) : Type := flow R A * list E.

Definition ret {E R A} (a : A) : M E R A := (Next a, []).
Definition return_ {E R A} (r : R) : M E R A := (Return r, []).
Definition emit {E R} (e : E) : M E R unit := (Next (), [e]).
Definition bind {E R A B} (m : M E R A) (k : A → M E R B) : M E R B :=
  match m with
  | (Return r, t) => (Return r, t)
  | (Next a, t) => let '(x, t') := k a in (x, (t ++ t')%list)
  end.

(** The value a function body returns, whether by an early [return] or at
    its end, and its events. *)
Definition run {E R} (m : M E R R) : R * list E :=
  match m with
  | (Return r, t) => (r, t)
  | (Next r, t) => (r, t)
  end.
Definition returns {E R} (m : M E R R) : R := (run m).1.
Definition events {E R} (m : M E R R) : list E := (run m).2.

(** stdpp's monad notations [x ← m; k] and [m;; k] are used for [M]. *)
#[global] Instance M_ret {E R} : MRet (M E R) := λ A a, ret a.
#[global] Instance M_bind {E R} : MBind (M E R) := λ A B k m, bind m k.

(** ** The server and its collaborators *)

Section pipeline.
(** [url.URL] and its [String()] method *)
Context {URL : Type} (URL_String : URL → string).
(** Go's [error] values, [context.Context], the [KubernetesInfo] of a caller,
    [net.IP], and what an [x509.CertificateRequest] holds besides its
    subject-alternative-names (public key, signature, extensions) *)
Context {error context_Context KubernetesInfo_t IP x509_rest : Type}.

(** [security.Caller] *)
Record Caller : Type := {
  Identities : list string;
  KubernetesInfo : KubernetesInfo_t
}.

(** [security.AuthContext]; [authRequest] sets only [GrpcContext]. *)
Record AuthContext : Type := { GrpcContext : context_Context }.

(** [security.Authenticator]: [Authenticate] gives a caller and a nil
    error, or an error.  Within a run every authenticator is called at
    most once; its answer is taken as a function of the context. *)
Record Authenticator : Type := {
  Authenticate : AuthContext → Caller + error
}.

(** The node authorizer of the server: [authenticateImpersonation] gives nil
    ([None]) when the caller may impersonate the identity. *)
Record NodeAuthorizer : Type := {
  authenticateImpersonation : KubernetesInfo_t → string → option error
}.

(** [x509.CertificateRequest] *)
Record CertificateRequest : Type := {
  URIs : list URL;
  IPAddresses : list IP;
  EmailAddresses : list string;
  rest_of_csr : x509_rest
}.

(** The key of the impersonated identity in the request metadata,
    [security.ImpersonatedIdentity] *)
Context (ImpersonatedIdentity : string).
(** [pkiutil.ParsePemEncodedCSR], [CertificateRequest.CheckSignature] and
    [extensions.ValidateCSRExtentions]; an absent error is nil. *)
Context (ParsePemEncodedCSR : string → CertificateRequest + error).
Context (CheckSignature : CertificateRequest → option error).
Context (ValidateCSRExtentions : CertificateRequest → option error).

(** [Server]: the fields [authRequest] reads.  What is written to its
    logger is part of the events of a run. *)
Record Server : Type := {
  authenticators : list Authenticator;
  nodeAuthorizer : option NodeAuthorizer
}.

(** The errors [authRequest] builds or passes to a logger. *)
Inductive logged_error : Type :=
| errors_Join (errs : list error)
| errors_New (text : string)
| from_collaborator (err : error)
| Errorf_impersonation (impersonatedIdentity : string) (err : error)
| Errorf_identities (identities : list string) (uris : list URL)
| Errorf_impersonated (impersonatedIdentity : string) (uris : list URL).

(** The loggers: the server's [s.log], the istio [log] package, and
    [s.log.WithValues("identities", identities)]. *)
Inductive logger : Type :=
| s_log
| istio_log
| s_log_WithValues (identities : string).

Inductive event : Type :=
| call_Authenticate (i : nat) (actx : AuthContext)
| call_authenticateImpersonation (k : KubernetesInfo_t) (identity : string)
| call_ParsePemEncodedCSR (pem : string)
| call_CheckSignature (csr : CertificateRequest)
| call_ValidateCSRExtentions (csr : CertificateRequest)
| call_identitiesMatch (a : list string) (b : list URL)
| log_Debugf (format : string) (arg : string)
| log_Warnf (format : string)
| log_Error (l : logger) (err : logged_error) (msg : string)
| log_Error_forbidden (l : logger) (ips : list IP) (emails : list string).

(** The authenticator loop of [authRequest] (lines 41-49), from the
    authenticator of index [i] on, with the errors collected so far.  The
    result holds the caller when one authenticator succeeded ([found]), and
    the collected errors. *)
Fixpoint authenticate_loop (ctx : context_Context)
    (rest : list Authenticator) (i : nat) (errs : list error)
    : M event (string * bool) (option Caller * list error) :=
  match rest with
  | [] => mret (None, errs)
  | authenticator :: rest' =>
      let actx := {| GrpcContext := ctx |} in
      emit (call_Authenticate i actx);;
      match Authenticate authenticator actx with
      | inl caller => mret (Some caller, errs)
      | inr err => authenticate_loop ctx rest' (S i) (errs ++ [err])%list
      end
  end.

(** [authRequest] from line 56 on, once the loop has found [caller]. *)
Definition authorize (s : Server) (icr : IstioCertificateRequest)
    (caller : Caller) : M event (string * bool) (string * bool) :=
  if (length (Identities caller) =? 0)%nat then
    emit (log_Error s_log (errors_New "request sent with no identity") "");;
    return_ ("", false)
  else
  let identities := "" in
  let crMetadata := GetFields (GetMetadata icr) in
  let impersonatedIdentity :=
    GetStringValue (crMetadata !! ImpersonatedIdentity) in
  identities ←
    (if negb (String.eqb impersonatedIdentity "") then
       emit (log_Debugf "impersonated identity: %s" impersonatedIdentity);;
       match nodeAuthorizer s with
       | None =>
           emit (log_Warnf "impersonation not allowed, as node authorizer (CA_TRUSTED_NODE_ACCOUNTS) is not configured");;
           return_ ("", false)
       | Some na =>
           emit (call_authenticateImpersonation (KubernetesInfo caller)
                   impersonatedIdentity);;
           match authenticateImpersonation na (KubernetesInfo caller)
                   impersonatedIdentity with
           | Some err =>
               emit (log_Error istio_log
                       (Errorf_impersonation impersonatedIdentity err) "");;
               return_ (identities, false)
           | None => mret impersonatedIdentity
           end
       end
     else mret (strings_Join (Identities caller) ","));
  let log := s_log_WithValues identities in
  emit (call_ParsePemEncodedCSR (GetCsr icr));;
  match ParsePemEncodedCSR (GetCsr icr) with
  | inr err =>
      emit (log_Error log (from_collaborator err) "failed to decode CSR");;
      return_ (identities, false)
  | inl csr =>
      emit (call_CheckSignature csr);;
      match CheckSignature csr with
      | Some err =>
          emit (log_Error log (from_collaborator err)
                  "CSR failed signature check");;
          return_ (identities, false)
      | None =>
          if (0 <? length (IPAddresses csr))%nat
             || (0 <? length (EmailAddresses csr))%nat then
            emit (log_Error_forbidden log (IPAddresses csr)
                    (EmailAddresses csr));;
            return_ (identities, false)
          else
          emit (call_ValidateCSRExtentions csr);;
          match ValidateCSRExtentions csr with
          | Some err =>
              emit (log_Error log (from_collaborator err)
                      "forbidden extensions");;
              return_ (identities, false)
          | None =>
              (if String.eqb impersonatedIdentity "" then
                 emit (call_identitiesMatch (Identities caller) (URIs csr));;
                 if negb (identitiesMatch URL_String (Identities caller)
                            (URIs csr)) then
                   emit (log_Error log
                           (Errorf_identities (Identities caller) (URIs csr))
                           "failed to match URIs with identities");;
                   return_ (identities, false)
                 else mret ()
               else
                 emit (call_identitiesMatch [impersonatedIdentity]
                         (URIs csr));;
                 if negb (identitiesMatch URL_String [impersonatedIdentity]
                            (URIs csr)) then
                   emit (log_Error log
                           (Errorf_impersonated impersonatedIdentity
                              (URIs csr))
                           "failed to match URIs with impersonated identities");;
                   return_ (identities, false)
                 else mret ());;
              return_ (identities, true)
          end
      end
  end.

(** [Server.authRequest] *)
Definition authRequest (s : Server) (ctx : context_Context)
    (icr : IstioCertificateRequest) : M event (string * bool) (string * bool) :=
  '(found, errs) ← authenticate_loop ctx (authenticators s) 0 [];
  match found with
  | None =>
      emit (log_Error s_log (errors_Join errs)
              "failed to authenticate request");;
      return_ ("", false)
  | Some caller => authorize s icr caller
  end.


(** ** Facts about the authenticator loop *)

(** The context the loop hands to every authenticator *)
Definition actx_of (ctx : context_Context) : AuthContext :=
  {| GrpcContext := ctx |}.

Definition fails (ctx : context_Context) (a : Authenticator) : Prop :=
  ∃ err, Authenticate a (actx_of ctx) = inr err.

Definition succeeds (ctx : context_Context) (a : Authenticator)
    (caller : Caller) : Prop :=
  Authenticate a (actx_of ctx) = inl caller.

(** The errors of the authenticators of a list that fail, in list order *)
Definition errors_of (ctx : context_Context) (l : list Authenticator)
    : list error :=
  omap (λ a, match Authenticate a (actx_of ctx) with
             | inr err => Some err
             | inl _ => None
             end) l.

(** The calls of the authenticators of indices [i], ..., [i + n - 1] *)
Definition calls (ctx : context_Context) (i n : nat) : list event :=
  (λ j, call_Authenticate j (actx_of ctx)) <$> seq i n.

Lemma authenticate_loop_all_fail (ctx : context_Context)
    (l : list Authenticator) (i : nat) (errs : list error) :
  Forall (fails ctx) l →
  authenticate_loop ctx l i errs
  = (Next (None, (errs ++ errors_of ctx l)%list), calls ctx i (length l)).
Proof.
  intros Hl. revert i errs.
  induction Hl as [|a l [err Ha] _ IH]; intros i errs; simpl.
  - by rewrite app_nil_r.
  - fold (actx_of ctx). rewrite Ha. unfold mbind, M_bind. simpl.
    rewrite IH. by rewrite <-app_assoc.
Qed.

Lemma authenticate_loop_found (ctx : context_Context)
    (failed : list Authenticator) (a : Authenticator)
    (later : list Authenticator) (i : nat) (errs : list error)
    (caller : Caller) :
  Forall (fails ctx) failed →
  succeeds ctx a caller →
  authenticate_loop ctx (failed ++ a :: later) i errs
  = (Next (Some caller, (errs ++ errors_of ctx failed)%list),
     calls ctx i (S (length failed))).
Proof.
  intros Hl Ha. revert i errs.
  induction Hl as [|b l [err Hb] _ IH]; intros i errs; simpl.
  - fold (actx_of ctx). rewrite Ha. by rewrite app_nil_r.
  - fold (actx_of ctx). rewrite Hb. unfold mbind, M_bind. simpl.
    rewrite IH. by rewrite <-app_assoc.
Qed.

(** Either every authenticator fails, or there is a first one that
    succeeds. *)
Lemma authenticators_cases (ctx : context_Context) (l : list Authenticator) :
  Forall (fails ctx) l
  ∨ ∃ failed a later caller,
      l = (failed ++ a :: later)%list
      ∧ Forall (fails ctx) failed ∧ succeeds ctx a caller.
Proof.
  induction l as [|a l IH]; [by left|].
  destruct (Authenticate a (actx_of ctx)) as [caller|err] eqn:Ha.
  - right. by exists [], a, l, caller.
  - destruct IH as [IH|(failed & b & later & caller & -> & Hf & Hb)].
    + left. constructor; [by exists err|done].
    + right. exists (a :: failed), b, later, caller.
      split_and!; [done| |done]. constructor; [by exists err|done].
Qed.

Lemma run_authRequest_all_fail (s : Server) (ctx : context_Context)
    (icr : IstioCertificateRequest) :
  Forall (fails ctx) (authenticators s) →
  run (authRequest s ctx icr)
  = (("", false),
     (calls ctx 0 (length (authenticators s))
      ++ [log_Error s_log (errors_Join (errors_of ctx (authenticators s)))
            "failed to authenticate request"])%list).
Proof.
  intros Hl. unfold authRequest.
  by rewrite (authenticate_loop_all_fail _ _ _ _ Hl).
Qed.

Lemma run_authRequest_found (s : Server) (ctx : context_Context)
    (icr : IstioCertificateRequest) (failed : list Authenticator)
    (a : Authenticator) (later : list Authenticator) (caller : Caller) :
  authenticators s = (failed ++ a :: later)%list →
  Forall (fails ctx) failed →
  succeeds ctx a caller →
  run (authRequest s ctx icr)
  = ((run (authorize s icr caller)).1,
     (calls ctx 0 (S (length failed))
      ++ (run (authorize s icr caller)).2)%list).
Proof.
  intros Hs Hl Ha. unfold authRequest.
  rewrite Hs, (authenticate_loop_found _ _ _ _ _ _ _ Hl Ha).
  unfold mbind, M_bind, bind.
  by destruct (authorize s icr caller) as [[r|r] t].
Qed.

(** ** Facts about the pipeline after authentication *)

(** The impersonated identity a request asks for; empty when it asks for
    none (lines 64-65). *)
Definition impersonated (icr : IstioCertificateRequest) : string :=
  GetStringValue (GetFields (GetMetadata icr) !! ImpersonatedIdentity).

(** The identity string once impersonation is resolved: the caller's
    identities joined by commas, or the impersonated identity. *)
Definition resolved_identity (caller : Caller)
    (icr : IstioCertificateRequest) : string :=
  if String.eqb (impersonated icr) "" then
    strings_Join (Identities caller) ","
  else impersonated icr.

(** Impersonation is resolved: none is asked for, or the configured node
    authorizer allows it. *)
Definition impersonation_resolved (s : Server) (caller : Caller)
    (icr : IstioCertificateRequest) : Prop :=
  impersonated icr = ""
  ∨ ∃ na, nodeAuthorizer s = Some na
          ∧ authenticateImpersonation na (KubernetesInfo caller)
              (impersonated icr) = None.

Arguments identitiesMatch : simpl never.
Arguments strings_Join : simpl never.

Ltac unfold_pipeline :=
  unfold returns, events, run, authorize;
  repeat match goal with
  | |- context [GetStringValue (GetFields (GetMetadata ?icr) !! _)] =>
      progress fold (impersonated icr)
  end;
  unfold mbind, M_bind, mret, M_ret, bind, ret, return_, emit.

(** Case analysis on the tests the pipeline still has to make, in the order
    it makes them. *)
Ltac by_cases :=
  repeat match goal with
  | |- context [Nat.eqb (length (Identities ?c)) 0] =>
      destruct (Nat.eqb (length (Identities c)) 0) eqn:?; simpl
  | |- context [String.eqb (impersonated ?icr) ""] =>
      destruct (String.eqb (impersonated icr) "") eqn:?; simpl
  | |- context [nodeAuthorizer ?s] =>
      destruct (nodeAuthorizer s) eqn:?; simpl
  | |- context [authenticateImpersonation ?na ?k ?i] =>
      destruct (authenticateImpersonation na k i) eqn:?; simpl
  | |- context [ParsePemEncodedCSR ?pem] =>
      destruct (ParsePemEncodedCSR pem) eqn:?; simpl
  | |- context [CheckSignature ?csr] =>
      destruct (CheckSignature csr) eqn:?; simpl
  | |- context [orb (Nat.ltb 0 (length (IPAddresses ?csr))) ?e] =>
      destruct (orb (Nat.ltb 0 (length (IPAddresses csr))) e) eqn:?; simpl
  | |- context [ValidateCSRExtentions ?csr] =>
      destruct (ValidateCSRExtentions csr) eqn:?; simpl
  | |- context [identitiesMatch ?f ?a ?b] =>
      destruct (identitiesMatch f a b) eqn:?; simpl
  end;
  try reflexivity.

Lemma length_eqb_0 {A} (l : list A) : l ≠ [] → (length l =? 0)%nat = false.
Proof. by destruct l. Qed.

Lemma eqb_empty_false (x : string) : x ≠ "" → String.eqb x "" = false.
Proof. by intros ?%String.eqb_neq. Qed.

Lemma authorize_nodeAuthorizer (s s' : Server)
    (icr : IstioCertificateRequest) (caller : Caller) :
  nodeAuthorizer s = nodeAuthorizer s' →
  authorize s icr caller = authorize s' icr caller.
Proof. intros H. unfold authorize. by rewrite H. Qed.

Lemma run_authorize_no_identity (s : Server) (icr : IstioCertificateRequest)
    (caller : Caller) :
  Identities caller = [] →
  run (authorize s icr caller)
  = (("", false),
     [log_Error s_log (errors_New "request sent with no identity") ""]).
Proof. intros H. unfold_pipeline. by rewrite H. Qed.

Lemma run_authorize_not_configured (s : Server)
    (icr : IstioCertificateRequest) (caller : Caller) :
  Identities caller ≠ [] →
  impersonated icr ≠ "" →
  nodeAuthorizer s = None →
  run (authorize s icr caller)
  = (("", false),
     [log_Debugf "impersonated identity: %s" (impersonated icr);
      log_Warnf "impersonation not allowed, as node authorizer (CA_TRUSTED_NODE_ACCOUNTS) is not configured"]).
Proof.
  intros Hid Himp Hna. unfold_pipeline.
  by rewrite (length_eqb_0 _ Hid), (eqb_empty_false _ Himp), Hna.
Qed.

Lemma run_authorize_denied (s : Server) (icr : IstioCertificateRequest)
    (caller : Caller) (na : NodeAuthorizer) (err : error) :
  Identities caller ≠ [] →
  impersonated icr ≠ "" →
  nodeAuthorizer s = Some na →
  authenticateImpersonation na (KubernetesInfo caller) (impersonated icr)
  = Some err →
  run (authorize s icr caller)
  = (("", false),
     [log_Debugf "impersonated identity: %s" (impersonated icr);
      call_authenticateImpersonation (KubernetesInfo caller)
        (impersonated icr);
      log_Error istio_log
        (Errorf_impersonation (impersonated icr) err) ""]).
Proof.
  intros Hid Himp Hna Herr. unfold_pipeline.
  by rewrite (length_eqb_0 _ Hid), (eqb_empty_false _ Himp), Hna, Herr.
Qed.

(** With impersonation resolved, the identity string of every return is the
    resolved one. *)
Lemma authorize_resolved_identity (s : Server)
    (icr : IstioCertificateRequest) (caller : Caller) :
  Identities caller ≠ [] →
  impersonation_resolved s caller icr →
  (returns (authorize s icr caller)).1 = resolved_identity caller icr.
Proof.
  intros Hid Hres. unfold resolved_identity. unfold_pipeline.
  rewrite (length_eqb_0 _ Hid).
  destruct Hres as [Himp|(na & Hna & Hok)].
  - rewrite Himp. simpl. by_cases.
  - rewrite Hna, Hok.
    destruct (String.eqb_spec (impersonated icr) "") as [Himp|Himp]; simpl;
      by_cases.
Qed.

Lemma forbidden_sans_test (csr : CertificateRequest) :
  IPAddresses csr ≠ [] ∨ EmailAddresses csr ≠ [] →
  (0 <? length (IPAddresses csr))%nat
  || (0 <? length (EmailAddresses csr))%nat = true.
Proof.
  intros [H|H].
  - by destruct (IPAddresses csr).
  - destruct (EmailAddresses csr); [done|]. by rewrite orb_true_r.
Qed.

Lemma authorize_forbidden_sans (s : Server) (icr : IstioCertificateRequest)
    (caller : Caller) (csr : CertificateRequest) :
  ParsePemEncodedCSR (GetCsr icr) = inl csr →
  IPAddresses csr ≠ [] ∨ EmailAddresses csr ≠ [] →
  (returns (authorize s icr caller)).2 = false.
Proof.
  intros Hcsr Hsan%forbidden_sans_test. unfold_pipeline.
  rewrite Hcsr, Hsan. by_cases.
Qed.

(** The matcher is only ever called with a non-empty list of expected
    identities. *)
Lemma authorize_matcher_expected (s : Server) (icr : IstioCertificateRequest)
    (caller : Caller) (a : list string) (b : list URL) :
  call_identitiesMatch a b ∈ events (authorize s icr caller) → a ≠ [].
Proof.
  unfold events at 1.
  destruct (decide (Identities caller = [])) as [Hid|Hid].
  - rewrite (run_authorize_no_identity _ _ _ Hid).
    by intros [=]%list_elem_of_singleton.
  - unfold_pipeline. rewrite (length_eqb_0 _ Hid).
    by_cases; intros Hin; decompose_list_elem_of; congruence.
Qed.

Lemma calls_only_Authenticate (ctx : context_Context) (i n : nat) (e : event) :
  e ∈ calls ctx i n → ∃ j, e = call_Authenticate j (actx_of ctx).
Proof. unfold calls. intros (j & -> & _)%list_elem_of_fmap. by exists j. Qed.

Lemma returns_authRequest_found (s : Server) (ctx : context_Context)
    (icr : IstioCertificateRequest) (failed : list Authenticator)
    (a : Authenticator) (later : list Authenticator) (caller : Caller) :
  authenticators s = (failed ++ a :: later)%list →
  Forall (fails ctx) failed →
  succeeds ctx a caller →
  returns (authRequest s ctx icr) = returns (authorize s icr caller).
Proof.
  intros Hs Hl Ha. unfold returns at 1.
  by rewrite (run_authRequest_found _ _ _ _ _ _ _ Hs Hl Ha).
Qed.

Lemma events_authRequest_found (s : Server) (ctx : context_Context)
    (icr : IstioCertificateRequest) (failed : list Authenticator)
    (a : Authenticator) (later : list Authenticator) (caller : Caller) :
  authenticators s = (failed ++ a :: later)%list →
  Forall (fails ctx) failed →
  succeeds ctx a caller →
  events (authRequest s ctx icr)
  = (calls ctx 0 (S (length failed)) ++ events (authorize s icr caller))%list.
Proof.
  intros Hs Hl Ha. unfold events at 1.
  by rewrite (run_authRequest_found _ _ _ _ _ _ _ Hs Hl Ha).
Qed.

(** The outcome of the pipeline once impersonation is resolved, by the
    first test of lines 84-121 that fails. *)
Lemma returns_authorize_resolved (s : Server) (icr : IstioCertificateRequest)
    (caller : Caller) :
  Identities caller ≠ [] →
  impersonation_resolved s caller icr →
  let identities := resolved_identity caller icr in
  let expected :=
    if String.eqb (impersonated icr) "" then Identities caller
    else [impersonated icr] in
  returns (authorize s icr caller)
  = (identities,
     match ParsePemEncodedCSR (GetCsr icr) with
     | inr _ => false
     | inl csr =>
         match CheckSignature csr with
         | Some _ => false
         | None =>
             if (0 <? length (IPAddresses csr))%nat
                || (0 <? length (EmailAddresses csr))%nat then false
             else
               match ValidateCSRExtentions csr with
               | Some _ => false
               | None => identitiesMatch URL_String expected (URIs csr)
               end
         end
     end).
Proof.
  intros Hid Hres. unfold resolved_identity. unfold_pipeline.
  rewrite (length_eqb_0 _ Hid).
  destruct Hres as [Himp|(na & Hna & Hok)].
  - rewrite Himp. simpl. by_cases.
  - rewrite Hna, Hok. by_cases.
Qed.

(** The pipeline after authentication calls no authenticator. *)
Lemma authorize_no_call_Authenticate (s : Server)
    (icr : IstioCertificateRequest) (caller : Caller) (i : nat)
    (actx : AuthContext) :
  call_Authenticate i actx ∉ events (authorize s icr caller).
Proof.
  unfold_pipeline.
  by_cases; intros Hin; decompose_list_elem_of; congruence.
Qed.

Lemma calls_index (ctx : context_Context) (i n : nat) (actx : AuthContext) :
  call_Authenticate i actx ∈ calls ctx 0 n → i < n.
Proof.
  unfold calls. intros (j & [= -> _] & Hj)%list_elem_of_fmap.
  apply elem_of_seq in Hj. lia.
Qed.

(** An authenticator that is called in a run and succeeds is the first
    one of the list that succeeds. *)
Lemma called_and_succeeds (s : Server) (ctx : context_Context)
    (icr : IstioCertificateRequest) (i : nat) (a : Authenticator)
    (caller : Caller) :
  authenticators s !! i = Some a →
  call_Authenticate i (actx_of ctx) ∈ events (authRequest s ctx icr) →
  succeeds ctx a caller →
  ∃ failed later,
    authenticators s = (failed ++ a :: later)%list
    ∧ Forall (fails ctx) failed.
Proof.
  intros Hi Hin Ha.
  destruct (authenticators_cases ctx (authenticators s))
    as [Hl|(failed & a0 & later & caller0 & Hs & Hl & Ha0)].
  - apply list_elem_of_lookup_2 in Hi.
    rewrite Forall_forall in Hl. destruct (Hl a Hi) as [err Herr].
    unfold succeeds in Ha. congruence.
  - rewrite (events_authRequest_found _ _ _ _ _ _ _ Hs Hl Ha0) in Hin.
    apply elem_of_app in Hin as [Hin|Hin];
      [|by apply authorize_no_call_Authenticate in Hin].
    apply calls_index in Hin. rewrite Hs in Hi.
    destruct (decide (i = length failed)) as [->|Hne].
    + rewrite list_lookup_middle in Hi by done.
      injection Hi as <-. by exists failed, later.
    + rewrite lookup_app_l in Hi by lia.
      apply list_elem_of_lookup_2 in Hi.
      rewrite Forall_forall in Hl. destruct (Hl a Hi) as [err Herr].
      unfold succeeds in Ha. congruence.
Qed.

(** ** The claims about [authRequest] *)

(** C2. When some authenticator of the server is called in the run and
    succeeds with the identity list ["spiffe://cluster/ns/default/sa/foo"],
    the request asks for no impersonation, the CSR decodes, its signature
    verifies, it has no IP and no email subject-alternative-name, the
    extension validator accepts it, and its URI subject-alternative-names
    are that single identity, then [authRequest] returns
    ("spiffe://cluster/ns/default/sa/foo", true). *)
Theorem authRequest_end_to_end_success (s : Server) (ctx : context_Context)
    (icr : IstioCertificateRequest) (i : nat) (a : Authenticator)
    (caller : Caller) (csr : CertificateRequest) :
  authenticators s !! i = Some a →
  call_Authenticate i (actx_of ctx) ∈ events (authRequest s ctx icr) →
  Authenticate a (actx_of ctx) = inl caller →
  Identities caller = ["spiffe://cluster/ns/default/sa/foo"] →
  impersonated icr = "" →
  ParsePemEncodedCSR (GetCsr icr) = inl csr →
  CheckSignature csr = None →
  IPAddresses csr = [] →
  EmailAddresses csr = [] →
  ValidateCSRExtentions csr = None →
  URL_String <$> URIs csr = ["spiffe://cluster/ns/default/sa/foo"] →
  returns (authRequest s ctx icr)
  = ("spiffe://cluster/ns/default/sa/foo", true).
Proof.
  intros Hi Hcall Ha Hid Himp Hcsr Hsig Hip Hemail Hext Huri.
  destruct (called_and_succeeds s ctx icr i a caller Hi Hcall Ha)
    as (failed & later & Hs & Hl).
  rewrite (returns_authRequest_found _ _ _ _ _ _ _ Hs Hl Ha).
  rewrite returns_authorize_resolved; [|by rewrite Hid|by left].
  unfold resolved_identity.
  rewrite Himp, Hcsr, Hsig, Hip, Hemail, Hext, Hid. simpl.
  f_equal. apply identitiesMatch_perm. by rewrite Huri.
Qed.

(** C3. When the CSR of the request decodes to one with an IP or an email
    subject-alternative-name, [authRequest] returns authorized = false,
    whatever its URI names, its signature and the caller are. *)
Theorem authRequest_forbidden_san (s : Server) (ctx : context_Context)
    (icr : IstioCertificateRequest) (csr : CertificateRequest) :
  ParsePemEncodedCSR (GetCsr icr) = inl csr →
  IPAddresses csr ≠ [] ∨ EmailAddresses csr ≠ [] →
  (returns (authRequest s ctx icr)).2 = false.
Proof.
  intros Hcsr Hsan.
  destruct (authenticators_cases ctx (authenticators s))
    as [Hl|(failed & a & later & caller & Hs & Hl & Ha)].
  - unfold returns. by rewrite (run_authRequest_all_fail _ _ _ Hl).
  - rewrite (returns_authRequest_found _ _ _ _ _ _ _ Hs Hl Ha).
    by apply (authorize_forbidden_sans _ _ _ csr).
Qed.

(** C4. When the request names an impersonated identity and the server has
    no node authorizer, [authRequest] returns ("", false), the CSR is never
    parsed, and the whole run (return value and events) is the same for
    every other CSR content. *)
Theorem authRequest_impersonation_not_configured (s : Server)
    (ctx : context_Context) (icr : IstioCertificateRequest) :
  impersonated icr ≠ "" →
  nodeAuthorizer s = None →
  returns (authRequest s ctx icr) = ("", false)
  ∧ (∀ pem, call_ParsePemEncodedCSR pem ∉ events (authRequest s ctx icr))
  ∧ (∀ icr', GetMetadata icr' = GetMetadata icr →
       run (authRequest s ctx icr') = run (authRequest s ctx icr)).
Proof.
  intros Himp Hna.
  destruct (authenticators_cases ctx (authenticators s))
    as [Hl|(failed & a & later & caller & Hs & Hl & Ha)].
  - unfold returns, events. rewrite !(run_authRequest_all_fail _ _ _ Hl).
    split_and!; [done| |].
    + intros pem [Hin|Hin]%elem_of_app.
      * by apply calls_only_Authenticate in Hin as [j ?].
      * by apply list_elem_of_singleton in Hin.
    + intros icr' _. by rewrite (run_authRequest_all_fail _ _ _ Hl).
  - assert (∀ icr', impersonated icr' = impersonated icr →
      run (authorize s icr' caller)
      = (("", false),
         if decide (Identities caller = []) then
           [log_Error s_log (errors_New "request sent with no identity") ""]
         else
           [log_Debugf "impersonated identity: %s" (impersonated icr);
            log_Warnf "impersonation not allowed, as node authorizer (CA_TRUSTED_NODE_ACCOUNTS) is not configured"]))
      as Hrun.
    { intros icr' Heq. destruct (decide (Identities caller = [])) as [Hid|Hid].
      - by apply run_authorize_no_identity.
      - rewrite <-Heq in Himp |- *. by apply run_authorize_not_configured. }
    unfold returns, events.
    rewrite !(run_authRequest_found _ _ _ _ _ _ _ Hs Hl Ha).
    rewrite !(Hrun icr eq_refl). simpl. split_and!; [done| |].
    + intros pem [Hin|Hin]%(elem_of_app (calls ctx 0 (S (length failed)))).
      * by apply calls_only_Authenticate in Hin as [j ?].
      * destruct (decide (Identities caller = []));
          decompose_list_elem_of; congruence.
    + intros icr' Hmeta.
      rewrite (run_authRequest_found _ _ _ _ _ _ _ Hs Hl Ha).
      rewrite Hrun; [done|]. unfold impersonated. by rewrite Hmeta.
Qed.

(** No event of the pipeline after authentication is the log of joined
    authenticator errors. *)
Lemma authorize_no_join (s : Server) (icr : IstioCertificateRequest)
    (caller : Caller) (l : logger) (errs : list error) (msg : string) :
  log_Error l (errors_Join errs) msg ∉ events (authorize s icr caller).
Proof.
  unfold_pipeline.
  by_cases; intros Hin; decompose_list_elem_of; congruence.
Qed.

(** C5. The authenticators are tried in list order.  When one succeeds
    after the ones before it failed, the calls made are exactly those of
    the authenticators up to it, the run goes on with its caller, and
    neither the errors of the failed ones nor the authenticators after it
    have any effect on the run.  The joined errors are logged, and
    authentication fails, exactly when every authenticator fails. *)
Theorem authenticator_chain_first_success (s : Server)
    (ctx : context_Context) (icr : IstioCertificateRequest) :
  (∀ failed a later caller,
     authenticators s = (failed ++ a :: later)%list →
     Forall (fails ctx) failed →
     succeeds ctx a caller →
     authenticate_loop ctx (authenticators s) 0 []
     = (Next (Some caller, errors_of ctx failed),
        calls ctx 0 (S (length failed)))
     ∧ returns (authRequest s ctx icr) = returns (authorize s icr caller)
     ∧ events (authRequest s ctx icr)
       = (calls ctx 0 (S (length failed))
          ++ events (authorize s icr caller))%list
     ∧ (∀ j actx,
          call_Authenticate j actx ∈ events (authRequest s ctx icr) →
          (j ≤ length failed)%nat)
     ∧ ∀ s' failed' later',
         authenticators s' = (failed' ++ a :: later')%list →
         Forall (fails ctx) failed' →
         length failed' = length failed →
         nodeAuthorizer s' = nodeAuthorizer s →
         run (authRequest s' ctx icr) = run (authRequest s ctx icr))
  ∧ ((∃ l errs msg,
        log_Error l (errors_Join errs) msg ∈ events (authRequest s ctx icr))
     ↔ Forall (fails ctx) (authenticators s))
  ∧ (Forall (fails ctx) (authenticators s) →
     authenticate_loop ctx (authenticators s) 0 []
     = (Next (None, errors_of ctx (authenticators s)),
        calls ctx 0 (length (authenticators s)))
     ∧ run (authRequest s ctx icr)
       = (("", false),
          (calls ctx 0 (length (authenticators s))
           ++ [log_Error s_log
                 (errors_Join (errors_of ctx (authenticators s)))
                 "failed to authenticate request"])%list)).
Proof.
  split_and!.
  - intros failed a later caller Hs Hl Ha. split_and!.
    + rewrite Hs. by rewrite (authenticate_loop_found _ _ _ _ _ _ _ Hl Ha).
    + by apply (returns_authRequest_found _ _ _ failed a later).
    + by apply (events_authRequest_found _ _ _ failed a later).
    + intros j actx Hin.
      rewrite (events_authRequest_found _ _ _ _ _ _ _ Hs Hl Ha) in Hin.
      apply elem_of_app in Hin as [Hin|Hin].
      * apply calls_index in Hin. lia.
      * by apply authorize_no_call_Authenticate in Hin.
    + intros s' failed' later' Hs' Hl' Hlen Hna.
      rewrite (run_authRequest_found _ _ _ _ _ _ _ Hs Hl Ha).
      rewrite (run_authRequest_found _ _ _ _ _ _ _ Hs' Hl' Ha).
      by rewrite Hlen, (authorize_nodeAuthorizer _ _ _ _ Hna).
  - split.
    + intros (l & errs & msg & Hin).
      destruct (authenticators_cases ctx (authenticators s))
        as [Hl|(failed & a & later & caller & Hs & Hl & Ha)]; [done|].
      rewrite (events_authRequest_found _ _ _ _ _ _ _ Hs Hl Ha) in Hin.
      apply elem_of_app in Hin as [Hin|Hin].
      * by apply calls_only_Authenticate in Hin as [j ?].
      * by apply authorize_no_join in Hin.
    + intros Hl. eexists _, _, _. unfold events.
      rewrite (run_authRequest_all_fail _ _ _ Hl). simpl.
      apply elem_of_app. right. apply list_elem_of_singleton. reflexivity.
  - intros Hl. split.
    + by rewrite (authenticate_loop_all_fail _ _ _ _ Hl).
    + by apply run_authRequest_all_fail.
Qed.

(** C6. Once authentication, the identity check and the impersonation
    step have passed, every return from the decoding of the CSR onward
    gives the resolved identity string: on a decode failure, a signature
    failure, forbidden subject-alternative-names, a rejection by the
    extension validator and an identity mismatch with authorized = false,
    and on success with authorized = true. *)
Theorem authRequest_identity_after_resolution (s : Server)
    (ctx : context_Context) (icr : IstioCertificateRequest)
    (failed : list Authenticator) (a : Authenticator)
    (later : list Authenticator) (caller : Caller) :
  authenticators s = (failed ++ a :: later)%list →
  Forall (fails ctx) failed →
  succeeds ctx a caller →
  Identities caller ≠ [] →
  impersonation_resolved s caller icr →
  let identities := resolved_identity caller icr in
  let expected :=
    if String.eqb (impersonated icr) "" then Identities caller
    else [impersonated icr] in
  let result := returns (authRequest s ctx icr) in
  result.1 = identities
  ∧ (∀ err, ParsePemEncodedCSR (GetCsr icr) = inr err →
       result = (identities, false))
  ∧ (∀ csr, ParsePemEncodedCSR (GetCsr icr) = inl csr →
       (∀ err, CheckSignature csr = Some err →
          result = (identities, false))
       ∧ (CheckSignature csr = None →
          (IPAddresses csr ≠ [] ∨ EmailAddresses csr ≠ [] →
           result = (identities, false))
          ∧ (IPAddresses csr = [] → EmailAddresses csr = [] →
             (∀ err, ValidateCSRExtentions csr = Some err →
                result = (identities, false))
             ∧ (ValidateCSRExtentions csr = None →
                (identitiesMatch URL_String expected (URIs csr) = false →
                 result = (identities, false))
                ∧ (identitiesMatch URL_String expected (URIs csr) = true →
                   result = (identities, true)))))).
Proof.
  intros Hs Hl Ha Hid Hres identities expected result.
  assert (result = returns (authorize s icr caller)) as ->.
  { by apply (returns_authRequest_found _ _ _ failed a later). }
  rewrite (returns_authorize_resolved _ _ _ Hid Hres).
  fold identities expected. split_and!; [done|by intros err ->|].
  intros csr ->. split; [by intros err ->|]. intros ->. split.
  - by intros ->%forbidden_sans_test.
  - intros -> ->. simpl. split; [by intros err ->|]. intros ->.
    by split; intros ->.
Qed.

(** C7. When every authenticator fails, [authRequest] returns ("", false),
    and the run consists of the calls of the authenticators and the log of
    their joined errors: nothing of the rest of the pipeline is done. *)
Theorem authRequest_all_authenticators_fail (s : Server)
    (ctx : context_Context) (icr : IstioCertificateRequest) :
  Forall (fails ctx) (authenticators s) →
  returns (authRequest s ctx icr) = ("", false)
  ∧ events (authRequest s ctx icr)
    = (calls ctx 0 (length (authenticators s))
       ++ [log_Error s_log (errors_Join (errors_of ctx (authenticators s)))
             "failed to authenticate request"])%list.
Proof.
  intros Hl. unfold returns, events.
  by rewrite (run_authRequest_all_fail _ _ _ Hl).
Qed.

(** C8. When the request names an impersonated identity and the configured
    node authorizer refuses it for the caller, [authRequest] returns the
    empty identity string, not the impersonated identity, with
    authorized = false. *)
Theorem authRequest_impersonation_denied (s : Server)
    (ctx : context_Context) (icr : IstioCertificateRequest)
    (failed : list Authenticator) (a : Authenticator)
    (later : list Authenticator) (caller : Caller)
    (na : NodeAuthorizer) (err : error) :
  authenticators s = (failed ++ a :: later)%list →
  Forall (fails ctx) failed →
  succeeds ctx a caller →
  impersonated icr ≠ "" →
  nodeAuthorizer s = Some na →
  authenticateImpersonation na (KubernetesInfo caller) (impersonated icr)
  = Some err →
  returns (authRequest s ctx icr) = ("", false)
  ∧ (returns (authRequest s ctx icr)).1 ≠ impersonated icr.
Proof.
  intros Hs Hl Ha Himp Hna Herr.
  assert (returns (authRequest s ctx icr) = ("", false)) as ->.
  { rewrite (returns_authRequest_found _ _ _ _ _ _ _ Hs Hl Ha).
    unfold returns. destruct (decide (Identities caller = [])) as [Hid|Hid].
    - by rewrite run_authorize_no_identity.
    - by rewrite (run_authorize_denied _ _ _ na err). }
  split; [done|]. simpl. congruence.
Qed.

(** C10. [identitiesMatch] of two empty lists is true.  In every run of
    [authRequest] the matcher is called with a non-empty list of expected
    identities; a caller without identities is turned away by the identity
    check before the matcher is called, though the matcher would accept
    its empty list against a CSR without URI names. *)
Theorem identitiesMatch_empty_unreachable (s : Server)
    (ctx : context_Context) (icr : IstioCertificateRequest) :
  identitiesMatch URL_String [] [] = true
  ∧ (∀ a b, call_identitiesMatch a b ∈ events (authRequest s ctx icr) →
       a ≠ [])
  ∧ (∀ failed a later caller,
       authenticators s = (failed ++ a :: later)%list →
       Forall (fails ctx) failed →
       succeeds ctx a caller →
       Identities caller = [] →
       run (authRequest s ctx icr)
       = (("", false),
          (calls ctx 0 (S (length failed))
           ++ [log_Error s_log (errors_New "request sent with no identity")
                 ""])%list)
       ∧ identitiesMatch URL_String (Identities caller) [] = true).
Proof.
  split_and!; [done| |].
  - intros x b Hin.
    destruct (authenticators_cases ctx (authenticators s))
      as [Hl|(failed & a & later & caller & Hs & Hl & Ha)].
    + unfold events in Hin. rewrite (run_authRequest_all_fail _ _ _ Hl) in Hin.
      simpl in Hin. apply elem_of_app in Hin as [Hin|Hin].
      * by apply calls_only_Authenticate in Hin as [j ?].
      * by apply list_elem_of_singleton in Hin.
    + rewrite (events_authRequest_found _ _ _ _ _ _ _ Hs Hl Ha) in Hin.
      apply elem_of_app in Hin as [Hin|Hin].
      * by apply calls_only_Authenticate in Hin as [j ?].
      * by apply authorize_matcher_expected in Hin.
  - intros failed a later caller Hs Hl Ha Hid. split; [|by rewrite Hid].
    rewrite (run_authRequest_found _ _ _ _ _ _ _ Hs Hl Ha).
    by rewrite (run_authorize_no_identity _ _ _ Hid).
Qed.

(** ** More about the pipeline *)

(** The identities the CSR has to carry: those of the caller, or the
    impersonated one (lines 110-118). *)
Definition expected_identities (caller : Caller)
    (icr : IstioCertificateRequest) : list string :=
  if String.eqb (impersonated icr) "" then Identities caller
  else [impersonated icr].

(** The CSR of the request passes every test of lines 84-118 for these
    expected identities. *)
Definition csr_accepted (icr : IstioCertificateRequest)
    (expected : list string) (csr : CertificateRequest) : Prop :=
  ParsePemEncodedCSR (GetCsr icr) = inl csr
  ∧ CheckSignature csr = None
  ∧ IPAddresses csr = []
  ∧ EmailAddresses csr = []
  ∧ ValidateCSRExtentions csr = None
  ∧ expected ≡ₚ URL_String <$> URIs csr.

Lemma no_forbidden_sans (csr : CertificateRequest) :
  (0 <? length (IPAddresses csr))%nat
  || (0 <? length (EmailAddresses csr))%nat = false →
  IPAddresses csr = [] ∧ EmailAddresses csr = [].
Proof.
  intros [Hip Hemail]%orb_false_elim.
  by destruct (IPAddresses csr), (EmailAddresses csr).
Qed.

(** Either the caller has identities and impersonation is resolved, or
    the pipeline returns ("", false) before it looks at the CSR. *)
Lemma resolution_cases (s : Server) (icr : IstioCertificateRequest)
    (caller : Caller) :
  (Identities caller ≠ [] ∧ impersonation_resolved s caller icr)
  ∨ returns (authorize s icr caller) = ("", false).
Proof.
  unfold returns.
  destruct (decide (Identities caller = [])) as [Hid|Hid].
  { right. by rewrite run_authorize_no_identity. }
  destruct (decide (impersonated icr = "")) as [Himp|Himp].
  { left. split; [done|by left]. }
  destruct (nodeAuthorizer s) as [na|] eqn:Hna.
  2: { right. by rewrite run_authorize_not_configured. }
  destruct (authenticateImpersonation na (KubernetesInfo caller)
              (impersonated icr)) as [err|] eqn:Herr.
  { right. by rewrite (run_authorize_denied _ _ _ na err). }
  left. split; [done|]. right. by exists na.
Qed.

Lemma authorize_authorized (s : Server) (icr : IstioCertificateRequest)
    (caller : Caller) :
  (returns (authorize s icr caller)).2 = true →
  Identities caller ≠ []
  ∧ impersonation_resolved s caller icr
  ∧ (∃ csr, csr_accepted icr (expected_identities caller icr) csr)
  ∧ returns (authorize s icr caller) = (resolved_identity caller icr, true).
Proof.
  intros Hok.
  destruct (resolution_cases s icr caller) as [[Hid Hres]|Hret].
  2: { by rewrite Hret in Hok. }
  split_and!; [done..| |].
  - rewrite (returns_authorize_resolved _ _ _ Hid Hres) in Hok.
    simpl in Hok.
    destruct (ParsePemEncodedCSR (GetCsr icr)) as [csr|] eqn:Hcsr; [|done].
    destruct (CheckSignature csr) eqn:Hsig; [done|].
    destruct (_ || _) eqn:Hsan; [done|].
    apply no_forbidden_sans in Hsan as [Hip Hemail].
    destruct (ValidateCSRExtentions csr) eqn:Hext; [done|].
    exists csr. split_and!; try done. by apply identitiesMatch_perm.
  - rewrite (returns_authorize_resolved _ _ _ Hid Hres) in Hok |- *.
    simpl in Hok. by rewrite Hok.
Qed.

(** X4. [authRequest] authorizes exactly the requests that pass every step:
    it returns authorized = true only if a first authenticator succeeds
    with a caller that has identities, impersonation is not asked for or
    is allowed by the node authorizer, and the CSR decodes, verifies, has
    no IP or email name, is accepted by the extension validator and
    carries as URI names a rearrangement of the expected identities; the
    identity returned is then the resolved one.  Conversely every such
    request is authorized. *)
Theorem authRequest_authorized_iff (s : Server) (ctx : context_Context)
    (icr : IstioCertificateRequest) :
  ((returns (authRequest s ctx icr)).2 = true →
   ∃ failed a later caller csr,
     authenticators s = (failed ++ a :: later)%list
     ∧ Forall (fails ctx) failed
     ∧ succeeds ctx a caller
     ∧ Identities caller ≠ []
     ∧ impersonation_resolved s caller icr
     ∧ csr_accepted icr (expected_identities caller icr) csr
     ∧ returns (authRequest s ctx icr)
       = (resolved_identity caller icr, true))
  ∧ (∀ failed a later caller csr,
       authenticators s = (failed ++ a :: later)%list →
       Forall (fails ctx) failed →
       succeeds ctx a caller →
       Identities caller ≠ [] →
       impersonation_resolved s caller icr →
       csr_accepted icr (expected_identities caller icr) csr →
       returns (authRequest s ctx icr)
       = (resolved_identity caller icr, true)).
Proof.
  split.
  - intros Hok.
    destruct (authenticators_cases ctx (authenticators s))
      as [Hl|(failed & a & later & caller & Hs & Hl & Ha)].
    { unfold returns in Hok.
      by rewrite (run_authRequest_all_fail _ _ _ Hl) in Hok. }
    rewrite (returns_authRequest_found _ _ _ _ _ _ _ Hs Hl Ha) in Hok |- *.
    apply authorize_authorized in Hok as (Hid & Hres & [csr Hcsr] & Hret).
    by exists failed, a, later, caller, csr.
  - intros failed a later caller csr Hs Hl Ha Hid Hres
      (Hcsr & Hsig & Hip & Hemail & Hext & Hperm).
    rewrite (returns_authRequest_found _ _ _ _ _ _ _ Hs Hl Ha).
    rewrite (returns_authorize_resolved _ _ _ Hid Hres).
    rewrite Hcsr, Hsig, Hip, Hemail, Hext. simpl. f_equal.
    by apply identitiesMatch_perm.
Qed.

(** X5. A non-empty identity string in the result tells that the request
    was authenticated by a caller with identities and that impersonation,
    if asked for, was allowed: it is the resolved identity.  It tells
    nothing about the CSR. *)
Theorem authRequest_identity_nonempty (s : Server) (ctx : context_Context)
    (icr : IstioCertificateRequest) :
  (returns (authRequest s ctx icr)).1 ≠ "" →
  ∃ failed a later caller,
    authenticators s = (failed ++ a :: later)%list
    ∧ Forall (fails ctx) failed
    ∧ succeeds ctx a caller
    ∧ Identities caller ≠ []
    ∧ impersonation_resolved s caller icr
    ∧ (returns (authRequest s ctx icr)).1 = resolved_identity caller icr.
Proof.
  intros Hne.
  destruct (authenticators_cases ctx (authenticators s))
    as [Hl|(failed & a & later & caller & Hs & Hl & Ha)].
  { unfold returns in Hne.
    by rewrite (run_authRequest_all_fail _ _ _ Hl) in Hne. }
  rewrite (returns_authRequest_found _ _ _ _ _ _ _ Hs Hl Ha) in Hne |- *.
  destruct (resolution_cases s icr caller) as [[Hid Hres]|Hret].
  2: { by rewrite Hret in Hne. }
  exists failed, a, later, caller. split_and!; try done.
  by rewrite (returns_authorize_resolved _ _ _ Hid Hres).
Qed.

Lemma authorize_impersonating (s : Server) (icr : IstioCertificateRequest)
    (c1 c2 : Caller) :
  impersonated icr ≠ "" →
  Identities c1 ≠ [] → Identities c2 ≠ [] →
  KubernetesInfo c1 = KubernetesInfo c2 →
  authorize s icr c1 = authorize s icr c2.
Proof.
  intros Himp H1 H2 Hk. unfold_pipeline.
  rewrite (length_eqb_0 _ H1), (length_eqb_0 _ H2).
  rewrite (eqb_empty_false _ Himp), Hk. reflexivity.
Qed.

(** X6. Under impersonation the identities of the caller play no part: two
    callers with identities and the same [KubernetesInfo], found at the
    same place of the authenticator list, give the same run.  The CSR is
    matched against the impersonated identity alone. *)
Theorem authRequest_impersonation_ignores_identities (s1 s2 : Server)
    (ctx : context_Context) (icr : IstioCertificateRequest)
    (failed1 failed2 : list Authenticator) (a1 a2 : Authenticator)
    (later1 later2 : list Authenticator) (c1 c2 : Caller) :
  authenticators s1 = (failed1 ++ a1 :: later1)%list →
  Forall (fails ctx) failed1 → succeeds ctx a1 c1 →
  authenticators s2 = (failed2 ++ a2 :: later2)%list →
  Forall (fails ctx) failed2 → succeeds ctx a2 c2 →
  length failed1 = length failed2 →
  nodeAuthorizer s1 = nodeAuthorizer s2 →
  impersonated icr ≠ "" →
  Identities c1 ≠ [] → Identities c2 ≠ [] →
  KubernetesInfo c1 = KubernetesInfo c2 →
  run (authRequest s1 ctx icr) = run (authRequest s2 ctx icr).
Proof.
  intros Hs1 Hl1 Ha1 Hs2 Hl2 Ha2 Hlen Hna Himp H1 H2 Hk.
  rewrite (run_authRequest_found _ _ _ _ _ _ _ Hs1 Hl1 Ha1).
  rewrite (run_authRequest_found _ _ _ _ _ _ _ Hs2 Hl2 Ha2).
  rewrite Hlen, (authorize_nodeAuthorizer _ _ _ _ Hna).
  by rewrite (authorize_impersonating s2 icr c1 c2).
Qed.

Lemma bind_ext {E R A B} (m : M E R A) (k k' : A → M E R B) :
  (∀ a, k a = k' a) → bind m k = bind m k'.
Proof. intros H. destruct m as [[r|a] t]; simpl; [done|]. by rewrite H. Qed.

(** X7. Of the request [authRequest] reads the CSR bytes and the string
    under the impersonated-identity key of the metadata, and nothing
    else: requests that agree on these two give the same run, whatever
    their validity duration and their other metadata are. *)
Theorem authRequest_reads_csr_and_impersonation (s : Server)
    (ctx : context_Context) (icr icr' : IstioCertificateRequest) :
  GetCsr icr = GetCsr icr' →
  impersonated icr = impersonated icr' →
  run (authRequest s ctx icr) = run (authRequest s ctx icr').
Proof.
  intros Hcsr Himp. f_equal. unfold authRequest, mbind, M_bind.
  apply bind_ext. intros [[caller|] errs]; [|done].
  unfold_pipeline. by rewrite Hcsr, Himp.
Qed.

(** The log lines that record a denial *)
Definition is_denial_log (e : event) : bool :=
  match e with
  | log_Error _ _ _ | log_Warnf _ | log_Error_forbidden _ _ _ => true
  | _ => false
  end.

Lemma authorize_denial_logged (s : Server) (icr : IstioCertificateRequest)
    (caller : Caller) :
  ((returns (authorize s icr caller)).2 = false →
   ∃ e, last (events (authorize s icr caller)) = Some e
        ∧ is_denial_log e = true)
  ∧ ((returns (authorize s icr caller)).2 = true →
     Forall (λ e, is_denial_log e = false)
       (events (authorize s icr caller))).
Proof.
  unfold_pipeline.
  by_cases; (split; intros Hret; [|]); try discriminate Hret;
    first [ by eexists | by repeat constructor ].
Qed.

(** X8. No denial is silent and no success logs an error: a run that
    returns authorized = false ends with an error or warning log line, a
    run that returns authorized = true writes none. *)
Theorem authRequest_denial_logged (s : Server) (ctx : context_Context)
    (icr : IstioCertificateRequest) :
  ((returns (authRequest s ctx icr)).2 = false →
   ∃ e, last (events (authRequest s ctx icr)) = Some e
        ∧ is_denial_log e = true)
  ∧ ((returns (authRequest s ctx icr)).2 = true →
     Forall (λ e, is_denial_log e = false) (events (authRequest s ctx icr))).
Proof.
  destruct (authenticators_cases ctx (authenticators s))
    as [Hl|(failed & a & later & caller & Hs & Hl & Ha)].
  - unfold returns, events. rewrite (run_authRequest_all_fail _ _ _ Hl).
    split; [|done]. intros _. eexists. split; [apply last_snoc|done].
  - rewrite (returns_authRequest_found _ _ _ _ _ _ _ Hs Hl Ha).
    rewrite (events_authRequest_found _ _ _ _ _ _ _ Hs Hl Ha).
    destruct (authorize_denial_logged s icr caller) as [Hno Hyes].
    split.
    + intros (e & Hlast & He)%Hno. exists e. split; [|done].
      by rewrite last_app, Hlast.
    + intros Hall%Hyes. apply Forall_app. split; [|done].
      unfold calls. by apply Forall_fmap, Forall_true.
Qed.

(** The place of a collaborator call in the pipeline; log lines have
    none. *)
Definition stage (e : event) : option nat :=
  match e with
  | call_Authenticate _ _ => Some 0
  | call_authenticateImpersonation _ _ => Some 1
  | call_ParsePemEncodedCSR _ => Some 2
  | call_CheckSignature _ => Some 3
  | call_ValidateCSRExtentions _ => Some 4
  | call_identitiesMatch _ _ => Some 5
  | _ => None
  end.

Lemma stage_calls (ctx : context_Context) (i n : nat) :
  omap stage (calls ctx i n) = replicate n 0.
Proof.
  unfold calls. revert i. induction n as [|n IH]; intros i; csimpl; [done|].
  by rewrite IH.
Qed.

Lemma authorize_stages (s : Server) (icr : IstioCertificateRequest)
    (caller : Caller) :
  StronglySorted lt (0 :: omap stage (events (authorize s icr caller))).
Proof.
  unfold_pipeline. by_cases; repeat constructor.
Qed.

(** X9. The pipeline is linear: a run calls some authenticators, and after
    them the node authorizer, the CSR parser, the signature check, the
    extension validator and the matcher, each at most once and in this
    order. *)
Theorem authRequest_stages_in_order (s : Server) (ctx : context_Context)
    (icr : IstioCertificateRequest) :
  ∃ (n : nat) (l : list nat),
    omap stage (events (authRequest s ctx icr)) = (replicate n 0 ++ l)%list
    ∧ (n ≤ length (authenticators s))%nat
    ∧ StronglySorted lt (0 :: l).
Proof.
  destruct (authenticators_cases ctx (authenticators s))
    as [Hl|(failed & a & later & caller & Hs & Hl & Ha)].
  - exists (length (authenticators s)), []. unfold events.
    rewrite (run_authRequest_all_fail _ _ _ Hl). simpl.
    rewrite omap_app, stage_calls. split_and!; [done..|].
    by repeat constructor.
  - exists (S (length failed)),
      (omap stage (events (authorize s icr caller))).
    rewrite (events_authRequest_found _ _ _ _ _ _ _ Hs Hl Ha).
    rewrite omap_app, stage_calls. split_and!; [done| |].
    + rewrite Hs, length_app. simpl. lia.
    + apply authorize_stages.
Qed.

(** What the hypotheses of a case tell about the caller and the
    impersonation. *)
Ltac resolve_case :=
  repeat match goal with
  | |- _ ∧ _ => split
  | |- Identities ?c ≠ [] =>
      let H := fresh in
      intros H;
      match goal with
      | H' : Nat.eqb (length (Identities c)) 0 = false |- _ =>
          by rewrite H in H'
      end
  | |- impersonation_resolved _ _ _ =>
      first [ left; by apply String.eqb_eq
            | right; eexists; split; eassumption ]
  | |- impersonated _ ≠ "" => by apply String.eqb_neq
  | |- ∃ _, nodeAuthorizer _ = Some _ => eexists; eassumption
  | |- ∃ _, Some _ = Some _ => by eexists
  end.

Lemma authorize_matcher_arguments (s : Server)
    (icr : IstioCertificateRequest) (caller : Caller)
    (x : list string) (b : list URL) :
  call_identitiesMatch x b ∈ events (authorize s icr caller) →
  Identities caller ≠ []
  ∧ impersonation_resolved s caller icr
  ∧ x = expected_identities caller icr
  ∧ ∃ csr, ParsePemEncodedCSR (GetCsr icr) = inl csr
           ∧ CheckSignature csr = None
           ∧ IPAddresses csr = [] ∧ EmailAddresses csr = []
           ∧ ValidateCSRExtentions csr = None
           ∧ b = URIs csr.
Proof.
  unfold expected_identities. unfold_pipeline.
  by_cases; intros Hin; decompose_list_elem_of; simplify_eq;
    match goal with
    | H : orb _ _ = false |- _ => apply no_forbidden_sans in H as [? ?]
    end;
    match goal with
    | H : String.eqb (impersonated _) "" = _ |- _ => rewrite ?H
    end;
    (split_and!; [resolve_case..|done|]); eexists; by split_and!.
Qed.

(** X10. The names of a CSR are used only once it is verified: whenever the
    matcher is called, it is called on the URI names of the CSR the
    request decodes to, after its signature was verified, it was found
    free of IP and email names and the extension validator accepted it,
    and with the expected identities of an authenticated caller. *)
Theorem authRequest_matcher_arguments (s : Server) (ctx : context_Context)
    (icr : IstioCertificateRequest) (x : list string) (b : list URL) :
  call_identitiesMatch x b ∈ events (authRequest s ctx icr) →
  ∃ failed a later caller csr,
    authenticators s = (failed ++ a :: later)%list
    ∧ Forall (fails ctx) failed
    ∧ succeeds ctx a caller
    ∧ Identities caller ≠ []
    ∧ impersonation_resolved s caller icr
    ∧ x = expected_identities caller icr
    ∧ ParsePemEncodedCSR (GetCsr icr) = inl csr
    ∧ CheckSignature csr = None
    ∧ IPAddresses csr = [] ∧ EmailAddresses csr = []
    ∧ ValidateCSRExtentions csr = None
    ∧ b = URIs csr.
Proof.
  intros Hin.
  destruct (authenticators_cases ctx (authenticators s))
    as [Hl|(failed & a & later & caller & Hs & Hl & Ha)].
  - unfold events in Hin. rewrite (run_authRequest_all_fail _ _ _ Hl) in Hin.
    simpl in Hin. apply elem_of_app in Hin as [Hin|Hin].
    + by apply calls_only_Authenticate in Hin as [j ?].
    + by apply list_elem_of_singleton in Hin.
  - rewrite (events_authRequest_found _ _ _ _ _ _ _ Hs Hl Ha) in Hin.
    apply elem_of_app in Hin as [Hin|Hin].
    { by apply calls_only_Authenticate in Hin as [j ?]. }
    apply authorize_matcher_arguments in Hin
      as (Hid & Hres & -> & csr & ? & ? & ? & ? & ? & ->).
    by exists failed, a, later, caller, csr.
Qed.

Lemma authorize_node_authorizer_arguments (s : Server)
    (icr : IstioCertificateRequest) (caller : Caller)
    (k : KubernetesInfo_t) (x : string) :
  call_authenticateImpersonation k x ∈ events (authorize s icr caller) →
  Identities caller ≠ []
  ∧ impersonated icr ≠ ""
  ∧ (∃ na, nodeAuthorizer s = Some na)
  ∧ k = KubernetesInfo caller
  ∧ x = impersonated icr.
Proof.
  unfold_pipeline.
  by_cases; intros Hin; decompose_list_elem_of; simplify_eq;
    (split_and!; [resolve_case..|done|done]).
Qed.

(** X11. The node authorizer is asked only about a real impersonation: it is
    called only when the request names an impersonated identity and the
    caller was authenticated with identities, and then with the
    [KubernetesInfo] of that caller and the impersonated identity. *)
Theorem authRequest_node_authorizer_arguments (s : Server)
    (ctx : context_Context) (icr : IstioCertificateRequest)
    (k : KubernetesInfo_t) (x : string) :
  call_authenticateImpersonation k x ∈ events (authRequest s ctx icr) →
  ∃ failed a later caller,
    authenticators s = (failed ++ a :: later)%list
    ∧ Forall (fails ctx) failed
    ∧ succeeds ctx a caller
    ∧ Identities caller ≠ []
    ∧ impersonated icr ≠ ""
    ∧ (∃ na, nodeAuthorizer s = Some na)
    ∧ k = KubernetesInfo caller
    ∧ x = impersonated icr.
Proof.
  intros Hin.
  destruct (authenticators_cases ctx (authenticators s))
    as [Hl|(failed & a & later & caller & Hs & Hl & Ha)].
  - unfold events in Hin. rewrite (run_authRequest_all_fail _ _ _ Hl) in Hin.
    simpl in Hin. apply elem_of_app in Hin as [Hin|Hin].
    + by apply calls_only_Authenticate in Hin as [j ?].
    + by apply list_elem_of_singleton in Hin.
  - rewrite (events_authRequest_found _ _ _ _ _ _ _ Hs Hl Ha) in Hin.
    apply elem_of_app in Hin as [Hin|Hin].
    { by apply calls_only_Authenticate in Hin as [j ?]. }
    apply authorize_node_authorizer_arguments in Hin
      as (Hid & Himp & Hna & -> & ->).
    by exists failed, a, later, caller.
Qed.

(** X13. Every authenticator is called with the context of the request,
    unchanged, and only authenticators of the server are called: the
    calls of a run are those of an initial part of the list, each once and
    in list order. *)
Theorem authRequest_authenticator_calls (s : Server) (ctx : context_Context)
    (icr : IstioCertificateRequest) :
  ∃ n, (n ≤ length (authenticators s))%nat
       ∧ List.filter (λ e, bool_decide (stage e = Some 0))
           (events (authRequest s ctx icr))
         = (λ i, call_Authenticate i {| GrpcContext := ctx |}) <$> seq 0 n.
Proof.
  assert (∀ i n, List.filter (λ e, bool_decide (stage e = Some 0))
                   (calls ctx i n) = calls ctx i n) as Hcalls.
  { intros i n. unfold calls. revert i.
    induction n as [|n IH]; intros i; csimpl; [done|]. by rewrite IH. }
  assert (∀ caller, List.filter (λ e, bool_decide (stage e = Some 0))
                      (events (authorize s icr caller)) = []) as Hrest.
  { intros caller. unfold_pipeline. by_cases. }
  destruct (authenticators_cases ctx (authenticators s))
    as [Hl|(failed & a & later & caller & Hs & Hl & Ha)].
  - exists (length (authenticators s)). split; [done|]. unfold events.
    rewrite (run_authRequest_all_fail _ _ _ Hl). simpl.
    rewrite List.filter_app, Hcalls. simpl. by rewrite app_nil_r.
  - exists (S (length failed)). split.
    { rewrite Hs, length_app. simpl. lia. }
    rewrite (events_authRequest_found _ _ _ _ _ _ _ Hs Hl Ha).
    by rewrite List.filter_app, Hcalls, Hrest, app_nil_r.
Qed.

End pipeline.

(** ** [identitiesMatch] on slices in memory

    The matcher once more, now with the slices it works on: [make], [copy],
    the two sorts in place, and the loop over indices.  A slice is the
    address of its backing array (the matcher takes no sub-slices), an
    element of a [[]*url.URL] is a pointer that may be nil, and a
    computation either panics or gives a value and the memory after it. *)

Module Mem.
Section mem.
Context {URL : Type} (URL_String : URL → string).

Abbreviation loc := nat.

(** A backing array: of a [[]string] or of a [[]*url.URL] *)
Inductive array : Type :=
| Strings (l : list string)
| URLs (l : list (option URL)).

Abbreviation heap := (gmap nat array).

Inductive result (A : Type) : Type :=
| Ok (a : A) (h : heap)
| Panic (msg : string).
Arguments Ok {A} a h.
Arguments Panic {A} msg.

Definition G (A : Type) : Type := heap → result A.

#[global] Instance G_ret : MRet G := λ A a h, Ok a h.
#[global] Instance G_bind : MBind G := λ A B k m h,
  match m h with
  | Ok a h' => k a h'
  | Panic msg => Panic msg
  end.
Definition panic {A} (msg : string) : G A := λ _, Panic msg.

(** *** Slices of one element type *)

Section slice.
Context {T : Type} (inj : list T → array) (proj : array → option (list T)).
(** The zero value of the element type *)
Context (zero : T).

Definition read (p : loc) : G (list T) := λ h,
  match h !! p ≫= proj with
  | Some l => Ok l h
  | None => Panic "invalid slice"
  end.

Definition write (p : loc) (l : list T) : G unit := λ h,
  Ok () (<[p := inj l]> h).

(** [len(x)] *)
Definition len (x : loc) : G nat := l ← read x; mret (length l).

(** [make([]T, n)]: a new array of [n] zero values *)
Definition make (n : nat) : G loc := λ h,
  let p := fresh (dom h) in Ok p (<[p := inj (replicate n zero)]> h).

(** [copy(dst, src)]: copies as many elements as the shorter slice has. *)
Definition copy (dst src : loc) : G nat :=
  d ← read dst;
  s ← read src;
  let n := length d `min` length s in
  write dst (take n s ++ drop n d)%list;;
  mret n.

(** [x[i]] *)
Definition index (x : loc) (i : nat) : G T :=
  l ← read x;
  match l !! i with
  | Some v => mret v
  | None => panic "index out of range"
  end.

(** [x[i] = v] *)
Definition assign (x : loc) (i : nat) (v : T) : G unit :=
  l ← read x;
  if decide (i < length l) then write x (<[i := v]> l)
  else panic "index out of range".

(** [x[i], x[j] = x[j], x[i]] *)
Definition swap (x : loc) (i j : nat) : G unit :=
  xj ← index x j;
  xi ← index x i;
  assign x i xj;;
  assign x j xi.
End slice.

Definition proj_Strings (a : array) : option (list string) :=
  match a with Strings l => Some l | URLs _ => None end.
Definition proj_URLs (a : array) : option (list (option URL)) :=
  match a with URLs l => Some l | Strings _ => None end.

(** [u.String()] through a pointer *)
Definition String_of (u : option URL) : G string :=
  match u with
  | Some u => mret (URL_String u)
  | None => panic "nil pointer dereference"
  end.

(** *** The [sort] package in place

    What a sort does to the slice goes through [Less] and [Swap], as in
    [sort.Interface].  The insertion sort is the one of the library:
    [for i := a + 1; i < b; i++ {
       for j := i; j > a && data.Less(j, j-1); j-- { data.Swap(j, j-1) } }] *)

Record lessSwap : Type := {
  Less : nat → nat → G bool;
  Swap : nat → nat → G unit
}.

(** The inner loop, from index [j] down to [a]. *)
Fixpoint insertion_inner (data : lessSwap) (a j : nat) : G unit :=
  match j with
  | 0 => mret ()
  | S j' =>
      if decide (a < j) then
        less ← Less data j j';
        if less : bool then Swap data j j';; insertion_inner data a j'
        else mret ()
      else mret ()
  end.

(** The outer loop from index [i], with [count] indices to go. *)
Fixpoint insertion_outer (data : lessSwap) (a i count : nat) : G unit :=
  match count with
  | 0 => mret ()
  | S count' =>
      insertion_inner data a i;;
      insertion_outer data a (S i) count'
  end.

Definition insertionSort (data : lessSwap) (a b : nat) : G unit :=
  insertion_outer data a (S a) (b - S a).

(** [sort.Strings(x)] *)
Definition sort_Strings (x : loc) : G unit :=
  n ← len proj_Strings x;
  insertionSort
    {| Less := λ i j,
         xi ← index proj_Strings x i;
         xj ← index proj_Strings x j;
         mret (String.ltb xi xj);
       Swap := swap Strings proj_Strings x |}
    0 n.

(** [sort.SliceStable(x, less)] for a [[]*url.URL] *)
Definition sort_SliceStable (x : loc) (less : nat → nat → G bool) : G unit :=
  n ← len proj_URLs x;
  insertionSort {| Less := less; Swap := swap URLs proj_URLs x |} 0 n.

(** *** The matcher *)

(** [for i, v := range aa { if bb[i].String() != v { return false } }] and
    [return true], from index [i] with [count] elements to go. *)
Fixpoint range_loop (aa bb : loc) (i count : nat) : G bool :=
  match count with
  | 0 => mret true
  | S count' =>
      v ← index proj_Strings aa i;
      bi ← index proj_URLs bb i;
      s ← String_of bi;
      if negb (String.eqb s v) then mret false
      else range_loop aa bb (S i) count'
  end.

(** [identitiesMatch(a, b)] on the slices at [a] and [b] *)
Definition identitiesMatch (a b : loc) : G bool :=
  len_a ← len proj_Strings a;
  len_b ← len proj_URLs b;
  if negb (len_a =? len_b)%nat then mret false
  else
    aa ← make Strings "" len_a;
    bb ← make URLs None len_b;
    copy Strings proj_Strings aa a;;
    copy URLs proj_URLs bb b;;
    sort_Strings aa;;
    sort_SliceStable bb (λ i j,
      bi ← index proj_URLs bb i;
      si ← String_of bi;
      bj ← index proj_URLs bb j;
      sj ← String_of bj;
      mret (String.ltb si sj));;
    n ← len proj_Strings aa;
    range_loop aa bb 0 n.

(** *** Facts about slices *)

Lemma bind_Ok {A B} (m : G A) (k : A → G B) (h h' : heap) (a : A) :
  m h = Ok a h' → (m ≫= k) h = k a h'.
Proof. unfold mbind, G_bind. by intros ->. Qed.

Section slice_facts.
Context {T : Type} (inj : list T → array) (proj : array → option (list T)).
Context (zero : T).
Hypothesis proj_inj : ∀ l, proj (inj l) = Some l.

Lemma read_Ok (h : heap) (p : loc) (l : list T) :
  h !! p = Some (inj l) → read proj p h = Ok l h.
Proof. intros H. unfold read. rewrite H. simpl. by rewrite proj_inj. Qed.

Lemma len_Ok (h : heap) (p : loc) (l : list T) :
  h !! p = Some (inj l) → len proj p h = Ok (length l) h.
Proof. intros H. unfold len. by rewrite (bind_Ok _ _ _ _ _ (read_Ok _ _ _ H)). Qed.

Lemma index_Ok (h : heap) (p : loc) (l : list T) (i : nat) (v : T) :
  h !! p = Some (inj l) → l !! i = Some v → index proj p i h = Ok v h.
Proof.
  intros H Hi. unfold index.
  rewrite (bind_Ok _ _ _ _ _ (read_Ok _ _ _ H)). by rewrite Hi.
Qed.

Lemma assign_Ok (h : heap) (p : loc) (l : list T) (i : nat) (v : T) :
  h !! p = Some (inj l) → i < length l →
  assign inj proj p i v h = Ok () (<[p := inj (<[i := v]> l)]> h).
Proof.
  intros H Hi. unfold assign.
  rewrite (bind_Ok _ _ _ _ _ (read_Ok _ _ _ H)). by rewrite decide_True.
Qed.

Lemma swap_Ok (h : heap) (p : loc) (l : list T) (i j : nat) (x y : T) :
  h !! p = Some (inj l) → l !! i = Some x → l !! j = Some y →
  swap inj proj p i j h
  = Ok () (<[p := inj (<[j := x]> (<[i := y]> l))]> h).
Proof.
  intros H Hi Hj. unfold swap.
  rewrite (bind_Ok _ _ _ _ _ (index_Ok _ _ _ _ _ H Hj)).
  rewrite (bind_Ok _ _ _ _ _ (index_Ok _ _ _ _ _ H Hi)).
  rewrite (bind_Ok _ _ _ _ _ (assign_Ok _ _ _ _ _ H (lookup_lt_Some _ _ _ Hi))).
  rewrite (assign_Ok _ _ (<[i := y]> l)).
  - by rewrite insert_insert_eq.
  - by rewrite lookup_insert_eq.
  - rewrite length_insert. by eapply lookup_lt_Some.
Qed.

Lemma copy_Ok (h : heap) (dst src : loc) (d s : list T) :
  h !! dst = Some (inj d) → h !! src = Some (inj s) →
  length d = length s →
  copy inj proj dst src h = Ok (length s) (<[dst := inj s]> h).
Proof.
  intros Hd Hs Hlen. unfold copy.
  rewrite (bind_Ok _ _ _ _ _ (read_Ok _ _ _ Hd)).
  rewrite (bind_Ok _ _ _ _ _ (read_Ok _ _ _ Hs)).
  rewrite Hlen, Nat.min_id.
  rewrite take_ge, drop_ge, app_nil_r by lia. done.
Qed.

(** The insertion sort in place, for [Less] and [Swap] that compare by
    [key] and exchange elements of the slice at [p], as long as the
    elements are [good] (the comparison does not panic on them). *)
Section insertion.
Context (p : loc) (key : T → string) (good : T → Prop) (data : lessSwap).
Hypothesis Less_Ok : ∀ h l i j x y,
  h !! p = Some (inj l) → l !! i = Some x → l !! j = Some y →
  good x → good y → Less data i j h = Ok (less_by key x y) h.
Hypothesis Swap_Ok : ∀ h l i j x y,
  h !! p = Some (inj l) → l !! i = Some x → l !! j = Some y →
  Swap data i j h = Ok () (<[p := inj (<[j := x]> (<[i := y]> l))]> h).

Lemma insertion_inner_Ok (pre : list T) (x : T) (post : list T) (h : heap) :
  h !! p = Some (inj (pre ++ x :: post)%list) →
  Forall good pre → good x →
  Sorted (le_by key) pre →
  insertion_inner data 0 (length pre) h
  = Ok () (<[p := inj (insert_sorted (less_by key) x pre ++ post)%list]> h).
Proof.
  revert x post h. induction pre as [|y pre IH] using rev_ind;
    intros x post h Hp Hpre Hx Hs.
  - simpl. by rewrite insert_id.
  - rewrite length_app, Nat.add_1_r. simpl.
    apply Forall_app in Hpre as [Hpre [Hy _]%Forall_cons].
    rewrite <-app_assoc in Hp. simpl in Hp.
    erewrite bind_Ok; last first.
    { eapply (Less_Ok _ _ _ _ x y); [exact Hp| | |done..].
      - by rewrite lookup_app_r, Nat.sub_succ_l, Nat.sub_diag by lia.
      - by rewrite lookup_app_r, Nat.sub_diag by lia. }
    destruct (less_by key x y) eqn:Hlt.
    + erewrite bind_Ok; last first.
      { eapply (Swap_Ok _ _ _ _ x y); [exact Hp| |].
        - by rewrite lookup_app_r, Nat.sub_succ_l, Nat.sub_diag by lia.
        - by rewrite lookup_app_r, Nat.sub_diag by lia. }
      rewrite (swap_adjacent pre y x post).
      rewrite (IH x (y :: post)); [| |done..|].
      * rewrite insert_insert_eq.
        by rewrite (insert_sorted_snoc_lt key), <-app_assoc.
      * by rewrite lookup_insert_eq.
      * apply Sorted_StronglySorted in Hs; [|apply le_by_trans].
        apply StronglySorted_app in Hs as (_ & Hs & _).
        by apply StronglySorted_Sorted.
    + rewrite (insert_sorted_last key).
      * rewrite <-!app_assoc. simpl. by rewrite insert_id.
      * apply Sorted_StronglySorted in Hs; [|apply le_by_trans].
        apply StronglySorted_app in Hs as (Hle & _ & _).
        apply Forall_app. split; [|by repeat constructor].
        apply Forall_forall. intros z Hz.
        apply ltb_false_le. apply ltb_false_le in Hlt.
        etrans; [|exact Hlt]. apply (Hle z y); [done|by left].
Qed.

Lemma insertion_outer_Ok (todo acc : list T) (h : heap) :
  h !! p = Some (inj (acc ++ todo)%list) →
  Forall good (acc ++ todo) →
  Sorted (le_by key) acc →
  insertion_outer data 0 (length acc) (length todo) h
  = Ok () (<[p := inj (fold_left (λ acc x,
                         insert_sorted (less_by key) x acc) todo acc)]> h).
Proof.
  revert acc h. induction todo as [|x todo IH]; intros acc h Hp Hg Hs.
  - simpl. rewrite app_nil_r in Hp. by rewrite insert_id.
  - simpl. apply Forall_app in Hg as [Hacc [Hx Htodo]%Forall_cons].
    rewrite (bind_Ok _ _ _ _ _
      (insertion_inner_Ok acc x todo h Hp Hacc Hx Hs)).
    assert (S (length acc) = length (insert_sorted (less_by key) x acc))
      as ->.
    { by rewrite insert_sorted_perm. }
    rewrite IH.
    + by rewrite insert_insert_eq.
    + by rewrite lookup_insert_eq.
    + apply Forall_app. split; [|done].
      rewrite insert_sorted_perm. by constructor.
    + by apply insert_sorted_Sorted.
Qed.

(** The outer loop, when only the elements it reaches are known to be
    good: what comes after them stays where it is. *)
Lemma insertion_outer_prefix_Ok (todo acc rest : list T) (h : heap) :
  h !! p = Some (inj (acc ++ todo ++ rest)%list) →
  Forall good (acc ++ todo) →
  Sorted (le_by key) acc →
  insertion_outer data 0 (length acc) (length todo) h
  = Ok () (<[p := inj (fold_left (λ acc x,
                         insert_sorted (less_by key) x acc) todo acc
                       ++ rest)%list]> h).
Proof.
  revert acc h. induction todo as [|x todo IH]; intros acc h Hp Hg Hs.
  - simpl. by rewrite insert_id.
  - simpl. apply Forall_app in Hg as [Hacc [Hx Htodo]%Forall_cons].
    rewrite (bind_Ok _ _ _ _ _
      (insertion_inner_Ok acc x (todo ++ rest) h Hp Hacc Hx Hs)).
    assert (S (length acc) = length (insert_sorted (less_by key) x acc))
      as ->.
    { by rewrite insert_sorted_perm. }
    rewrite IH.
    + by rewrite insert_insert_eq.
    + by rewrite lookup_insert_eq.
    + apply Forall_app. split; [|done].
      rewrite insert_sorted_perm. by constructor.
    + by apply insert_sorted_Sorted.
Qed.

(** The outer loop over [c1 + c2] indices is the loop over the first [c1]
    followed by the loop over the other [c2]. *)
Lemma insertion_outer_add (a i c1 c2 : nat) (h : heap) :
  insertion_outer data a i (c1 + c2) h
  = (insertion_outer data a i c1;; insertion_outer data a (i + c1) c2) h.
Proof.
  revert i h. induction c1 as [|c1 IH]; intros i h; simpl.
  - by rewrite Nat.add_0_r.
  - unfold mbind, G_bind.
    destruct (insertion_inner data a i h) as [[] h1|msg]; [|done].
    rewrite IH. unfold mbind, G_bind. by rewrite Nat.add_succ_r.
Qed.

Lemma insertionSort_Ok (l : list T) (h : heap) :
  h !! p = Some (inj l) →
  Forall good l →
  insertionSort data 0 (length l) h
  = Ok () (<[p := inj (insertion_sort (less_by key) l)]> h).
Proof.
  intros Hp Hg. unfold insertionSort. destruct l as [|x l]; simpl.
  - by rewrite insert_id.
  - rewrite Nat.sub_0_r.
    apply (insertion_outer_Ok l [x] h Hp Hg). by repeat constructor.
Qed.
End insertion.
End slice_facts.

(** *** What a computation may write

    [writes_only P m]: when [m] ends without a panic, the memory after it
    differs from the memory before it at addresses in [P] only. *)

Definition writes_only {A} (P : nat → Prop) (m : G A) : Prop :=
  ∀ h a h', m h = Ok a h' → ∀ q, ¬ P q → h' !! q = h !! q.

Lemma bind_inv {A B} (m : G A) (k : A → G B) (h h' : heap) (b : B) :
  (m ≫= k) h = Ok b h' → ∃ a h1, m h = Ok a h1 ∧ k a h1 = Ok b h'.
Proof.
  unfold mbind, G_bind. destruct (m h) as [a h1|msg]; [|done]. by exists a, h1.
Qed.

Lemma writes_only_ret {A} (P : nat → Prop) (a : A) : writes_only P (mret a).
Proof. intros h a' h' [= _ <-] q _. done. Qed.

Lemma writes_only_panic {A} (P : nat → Prop) (msg : string) :
  writes_only P (panic (A:=A) msg).
Proof. by intros h a h' ?. Qed.

Lemma writes_only_bind {A B} (P : nat → Prop) (m : G A) (k : A → G B) :
  writes_only P m → (∀ a, writes_only P (k a)) → writes_only P (m ≫= k).
Proof.
  intros Hm Hk h b h' (a & h1 & H1 & H2)%bind_inv q Hq.
  rewrite (Hk a _ _ _ H2 q Hq). by apply (Hm _ _ _ H1).
Qed.

Section slice_writes.
Context {T : Type} (inj : list T → array) (proj : array → option (list T)).
Context (P : nat → Prop).

Lemma writes_only_read (p : nat) : writes_only P (read proj p).
Proof.
  intros h l h' H q _. unfold read in H.
  destruct (h !! p ≫= proj); by simplify_eq.
Qed.

Lemma writes_only_write (p : nat) (l : list T) :
  P p → writes_only P (write inj p l).
Proof.
  intros Hp h a h' Heq q Hq. unfold write in Heq. simplify_eq.
  apply lookup_insert_ne. by intros ->.
Qed.

Lemma writes_only_len (p : nat) : writes_only P (len proj p).
Proof.
  apply writes_only_bind; [apply writes_only_read|].
  intros l. apply writes_only_ret.
Qed.

Lemma writes_only_index (p i : nat) : writes_only P (index proj p i).
Proof.
  apply writes_only_bind; [apply writes_only_read|]. intros l.
  destruct (l !! i); [apply writes_only_ret|apply writes_only_panic].
Qed.

Lemma writes_only_assign (p i : nat) (v : T) :
  P p → writes_only P (assign inj proj p i v).
Proof.
  intros Hp. apply writes_only_bind; [apply writes_only_read|]. intros l.
  case_decide; [by apply writes_only_write|apply writes_only_panic].
Qed.

Lemma writes_only_swap (p i j : nat) :
  P p → writes_only P (swap inj proj p i j).
Proof.
  intros Hp. unfold swap.
  apply writes_only_bind; [apply writes_only_index|]. intros xj.
  apply writes_only_bind; [apply writes_only_index|]. intros xi.
  apply writes_only_bind; [by apply writes_only_assign|]. intros _.
  by apply writes_only_assign.
Qed.

Lemma writes_only_copy (dst src : nat) :
  P dst → writes_only P (copy inj proj dst src).
Proof.
  intros Hp. unfold copy.
  apply writes_only_bind; [apply writes_only_read|]. intros d.
  apply writes_only_bind; [apply writes_only_read|]. intros s.
  apply writes_only_bind; [by apply writes_only_write|]. intros _.
  apply writes_only_ret.
Qed.
End slice_writes.

Lemma writes_only_String_of (P : nat → Prop) (u : option URL) :
  writes_only P (String_of u).
Proof. destruct u; [apply writes_only_ret|apply writes_only_panic]. Qed.

Lemma writes_only_insertion_inner (P : nat → Prop) (data : lessSwap)
    (a j : nat) :
  (∀ i j, writes_only P (Less data i j)) →
  (∀ i j, writes_only P (Swap data i j)) →
  writes_only P (insertion_inner data a j).
Proof.
  intros HLess HSwap. induction j as [|j IH]; simpl.
  - apply writes_only_ret.
  - case_decide; [|apply writes_only_ret].
    apply writes_only_bind; [apply HLess|]. intros [|].
    + apply writes_only_bind; [apply HSwap|done].
    + apply writes_only_ret.
Qed.

Lemma writes_only_insertionSort (P : nat → Prop) (data : lessSwap)
    (a b : nat) :
  (∀ i j, writes_only P (Less data i j)) →
  (∀ i j, writes_only P (Swap data i j)) →
  writes_only P (insertionSort data a b).
Proof.
  intros HLess HSwap. unfold insertionSort.
  generalize (b - S a) as count. generalize (S a) as i.
  intros i count. revert i. induction count as [|count IH]; intros i; simpl.
  - apply writes_only_ret.
  - apply writes_only_bind; [by apply writes_only_insertion_inner|done].
Qed.

Lemma writes_only_sort_Strings (P : nat → Prop) (x : nat) :
  P x → writes_only P (sort_Strings x).
Proof.
  intros Hx. apply writes_only_bind; [apply writes_only_len|]. intros n.
  apply writes_only_insertionSort; simpl.
  - intros i j.
    apply writes_only_bind; [apply writes_only_index|]. intros xi.
    apply writes_only_bind; [apply writes_only_index|]. intros xj.
    apply writes_only_ret.
  - intros i j. by apply writes_only_swap.
Qed.

Lemma writes_only_sort_SliceStable (P : nat → Prop) (x : nat)
    (less : nat → nat → G bool) :
  P x → (∀ i j, writes_only P (less i j)) →
  writes_only P (sort_SliceStable x less).
Proof.
  intros Hx Hless. apply writes_only_bind; [apply writes_only_len|].
  intros n. apply writes_only_insertionSort; simpl; [done|].
  intros i j. by apply writes_only_swap.
Qed.

Lemma writes_only_range_loop (P : nat → Prop) (aa bb i count : nat) :
  writes_only P (range_loop aa bb i count).
Proof.
  revert i. induction count as [|count IH]; intros i; simpl.
  - apply writes_only_ret.
  - apply writes_only_bind; [apply writes_only_index|]. intros v.
    apply writes_only_bind; [apply writes_only_index|]. intros bi.
    apply writes_only_bind; [apply writes_only_String_of|]. intros s.
    destruct (negb _); [apply writes_only_ret|done].
Qed.

(** [make] writes at an address the memory does not hold yet. *)
Lemma make_new {T} (inj : list T → array) (zero : T) (n : nat)
    (h h' : heap) (p : nat) :
  make inj zero n h = Ok p h' →
  h !! p = None ∧ h' = <[p := inj (replicate n zero)]> h.
Proof.
  intros [= <- <-]. split; [|done]. apply not_elem_of_dom, is_fresh.
Qed.

(** Whatever its arguments and the memory are, a run of [identitiesMatch]
    that ends without a panic leaves every array the memory held as it
    was. *)
Lemma identitiesMatch_frame (a b : nat) (h h' : heap) (r : bool) :
  identitiesMatch a b h = Ok r h' →
  ∀ q arr, h !! q = Some arr → h' !! q = Some arr.
Proof.
  unfold identitiesMatch.
  intros (len_a & h1 & H1 & H)%bind_inv q arr Hq.
  apply bind_inv in H as (len_b & h2 & H2 & H).
  assert (h2 !! q = Some arr) as Hq2.
  { rewrite (writes_only_len _ (λ _, False) _ _ _ _ H2) by tauto.
    by rewrite (writes_only_len _ (λ _, False) _ _ _ _ H1) by tauto. }
  clear H1 H2. destruct (negb _).
  { injection H as _ <-. done. }
  apply bind_inv in H as (aa & h3 & [Haa ->]%make_new & H).
  apply bind_inv in H as (bb & h4 & [Hbb ->]%make_new & H).
  assert (q ≠ aa) as Hqa by congruence.
  assert (q ≠ bb) as Hqb.
  { intros ->. destruct (decide (bb = aa)) as [->|Hne]; [congruence|].
    rewrite lookup_insert_ne in Hbb by done. congruence. }
  assert (writes_only (λ p, p = aa ∨ p = bb)
    (copy Strings proj_Strings aa a;;
     copy URLs proj_URLs bb b;;
     sort_Strings aa;;
     sort_SliceStable bb (λ i j,
       bi ← index proj_URLs bb i;
       si ← String_of bi;
       bj ← index proj_URLs bb j;
       sj ← String_of bj;
       mret (String.ltb si sj));;
     n ← len proj_Strings aa;
     range_loop aa bb 0 n)) as Hw.
  { apply writes_only_bind; [apply writes_only_copy; by left|]. intros _.
    apply writes_only_bind; [apply writes_only_copy; by right|]. intros _.
    apply writes_only_bind; [apply writes_only_sort_Strings; by left|].
    intros _. apply writes_only_bind; [|intros _].
    - apply writes_only_sort_SliceStable; [by right|]. intros i j.
      apply writes_only_bind; [apply writes_only_index|]. intros bi.
      apply writes_only_bind; [apply writes_only_String_of|]. intros si.
      apply writes_only_bind; [apply writes_only_index|]. intros bj.
      apply writes_only_bind; [apply writes_only_String_of|]. intros sj.
      apply writes_only_ret.
    - apply writes_only_bind; [apply writes_only_len|]. intros n.
      apply writes_only_range_loop. }
  rewrite (Hw _ _ _ H q) by (intros [?|?]; congruence).
  by rewrite !lookup_insert_ne by done.
Qed.

End mem.
Arguments Ok {URL A} a h.
Arguments Panic {URL A} msg.
End Mem.

Example Mem_identitiesMatch_run :
  Mem.identitiesMatch id 0 1
    (<[0 := Mem.Strings ["b"; "a"; "c"]]>
       (<[1 := Mem.URLs [Some "c"; Some "b"; Some "a"]]> ∅))
  = Mem.Ok true
      (<[3 := Mem.URLs [Some "a"; Some "b"; Some "c"]]>
         (<[2 := Mem.Strings ["a"; "b"; "c"]]>
            (<[0 := Mem.Strings ["b"; "a"; "c"]]>
               (<[1 := Mem.URLs [Some "c"; Some "b"; Some "a"]]> ∅)))).
Proof. vm_compute. reflexivity. Qed.

(** A nil pointer among the URIs makes the matcher panic. *)
Example Mem_identitiesMatch_nil :
  Mem.identitiesMatch id 0 1
    (<[0 := Mem.Strings ["a"]]> (<[1 := Mem.URLs [None]]> ∅))
  = Mem.Panic "nil pointer dereference".
Proof. vm_compute. reflexivity. Qed.

(** ** The matcher in memory computes the matcher on lists *)

Lemma insert_sorted_fmap {A B} (f : A → B) (less : A → A → bool)
    (less' : B → B → bool) (x : A) (l : list A) :
  (∀ x y, less' (f x) (f y) = less x y) →
  insert_sorted less' (f x) (f <$> l) = f <$> insert_sorted less x l.
Proof.
  intros Hf. induction l as [|y l IH]; csimpl; [done|].
  rewrite Hf. destruct (less x y); csimpl; [done|]. by rewrite IH.
Qed.

Lemma insertion_sort_fmap {A B} (f : A → B) (less : A → A → bool)
    (less' : B → B → bool) (l : list A) :
  (∀ x y, less' (f x) (f y) = less x y) →
  insertion_sort less' (f <$> l) = f <$> insertion_sort less l.
Proof.
  intros Hf. unfold insertion_sort. change [] with (f <$> []) at 1.
  generalize (@nil A). induction l as [|x l IH]; intros acc; csimpl; [done|].
  by rewrite (insert_sorted_fmap _ less), IH.
Qed.

Section mem_facts.
Context {URL : Type} (URL_String : URL → string).

(** The closure given to [sort.SliceStable] in [identitiesMatch] *)
Definition less_closure (bb : nat) (i j : nat) : Mem.G bool :=
  bi ← Mem.index Mem.proj_URLs bb i;
  si ← Mem.String_of URL_String bi;
  bj ← Mem.index Mem.proj_URLs bb j;
  sj ← Mem.String_of URL_String bj;
  mret (String.ltb si sj).

(** The canonical string behind a pointer; nil has none, and is never asked
    for one where this is used. *)
Definition key_of_pointer (u : option URL) : string :=
  from_option URL_String "" u.

Lemma proj_Strings_inj (l : list string) :
  Mem.proj_Strings (URL:=URL) (Mem.Strings l) = Some l.
Proof. done. Qed.

Lemma proj_URLs_inj (l : list (option URL)) :
  Mem.proj_URLs (Mem.URLs l) = Some l.
Proof. done. Qed.

Lemma Mem_sort_Strings_Ok (h : gmap nat Mem.array) (p : nat)
    (l : list string) :
  h !! p = Some (Mem.Strings l) →
  Mem.sort_Strings p h
  = Mem.Ok () (<[p := Mem.Strings (URL:=URL) (sort_Strings l)]> h).
Proof.
  intros Hp. unfold Mem.sort_Strings.
  rewrite (Mem.bind_Ok _ _ _ _ _
    (Mem.len_Ok Mem.Strings Mem.proj_Strings proj_Strings_inj _ _ _ Hp)).
  apply (Mem.insertionSort_Ok Mem.Strings p id (λ _, True));
    [| |done|by apply Forall_true].
  - intros h' l' i j x y Hp' Hi Hj _ _. simpl.
    rewrite (Mem.bind_Ok _ _ _ _ _
      (Mem.index_Ok _ _ proj_Strings_inj _ _ _ _ _ Hp' Hi)).
    by rewrite (Mem.bind_Ok _ _ _ _ _
      (Mem.index_Ok _ _ proj_Strings_inj _ _ _ _ _ Hp' Hj)).
  - intros h' l' i j x y Hp' Hi Hj. simpl.
    by apply (Mem.swap_Ok _ _ proj_Strings_inj).
Qed.

Lemma Mem_sort_SliceStable_Ok (h : gmap nat Mem.array) (p : nat)
    (b : list URL) :
  h !! p = Some (Mem.URLs (Some <$> b)) →
  Mem.sort_SliceStable p (less_closure p) h
  = Mem.Ok ()
      (<[p := Mem.URLs (Some <$> sort_SliceStable b (less_by URL_String))]> h).
Proof.
  intros Hp. unfold Mem.sort_SliceStable.
  rewrite (Mem.bind_Ok _ _ _ _ _
    (Mem.len_Ok Mem.URLs Mem.proj_URLs proj_URLs_inj _ _ _ Hp)).
  unfold sort_SliceStable.
  rewrite <-(insertion_sort_fmap Some (less_by URL_String)
    (less_by key_of_pointer)) by done.
  apply (Mem.insertionSort_Ok Mem.URLs p key_of_pointer is_Some);
    [| |done|].
  - intros h' l' i j x y Hp' Hi Hj [u ->] [v ->]. simpl. unfold less_closure.
    rewrite (Mem.bind_Ok _ _ _ _ _
      (Mem.index_Ok _ _ proj_URLs_inj _ _ _ _ _ Hp' Hi)). simpl.
    unfold mbind at 1, Mem.G_bind at 1, mret at 1, Mem.G_ret at 1.
    by rewrite (Mem.bind_Ok _ _ _ _ _
      (Mem.index_Ok _ _ proj_URLs_inj _ _ _ _ _ Hp' Hj)).
  - intros h' l' i j x y Hp' Hi Hj. simpl.
    by apply (Mem.swap_Ok _ _ proj_URLs_inj).
  - apply Forall_fmap, Forall_true. by eexists.
Qed.

Lemma Mem_range_loop_Ok (h : gmap nat Mem.array) (aa bb : nat)
    (la : list string) (lb : list URL) (i count : nat) :
  h !! aa = Some (Mem.Strings la) →
  h !! bb = Some (Mem.URLs (Some <$> lb)) →
  i + count = length la →
  length la = length lb →
  Mem.range_loop URL_String aa bb i count h
  = Mem.Ok (range_loop URL_String i (drop i la) lb) h.
Proof.
  intros Ha Hb. revert i. induction count as [|count IH]; intros i Hi Hlen.
  - simpl. by rewrite drop_ge by lia.
  - destruct (lookup_lt_is_Some_2 la i) as [v Hv]; [lia|].
    destruct (lookup_lt_is_Some_2 lb i) as [u Hu]; [lia|].
    rewrite (drop_S _ _ _ Hv). simpl. rewrite Hu.
    rewrite (Mem.bind_Ok _ _ _ _ _
      (Mem.index_Ok _ _ proj_Strings_inj _ _ _ _ _ Ha Hv)).
    rewrite (Mem.bind_Ok _ _ _ _ (Some u)
      (Mem.index_Ok _ _ proj_URLs_inj _ _ _ _ _ Hb
         ltac:(by rewrite list_lookup_fmap, Hu))).
    simpl. unfold mbind at 1, Mem.G_bind at 1, mret at 1, Mem.G_ret at 1.
    destruct (negb (URL_String u =? v)); [done|].
    apply IH; lia.
Qed.
Lemma Mem_make_Ok {T} (inj : list T → Mem.array) (zero : T) (n : nat)
    (h : gmap nat Mem.array) :
  ∃ p, h !! p = None
       ∧ Mem.make inj zero n h
         = Mem.Ok (URL:=URL) p (<[p := inj (replicate n zero)]> h).
Proof.
  exists (fresh (dom h)). split; [|done].
  apply not_elem_of_dom, is_fresh.
Qed.

(** The memory after a run of the matcher on slices of equal length: the
    memory before it and the two sorted copies, at new addresses. *)
Lemma Mem_identitiesMatch_Ok (h : gmap nat Mem.array) (pa pb : nat)
    (a : list string) (b : list URL) :
  h !! pa = Some (Mem.Strings a) →
  h !! pb = Some (Mem.URLs (Some <$> b)) →
  ∃ h', Mem.identitiesMatch URL_String pa pb h
        = Mem.Ok (identitiesMatch URL_String a b) h'
        ∧ h ⊆ h'.
Proof.
  intros Ha Hb. unfold Mem.identitiesMatch, identitiesMatch.
  rewrite (Mem.bind_Ok _ _ _ _ _
    (Mem.len_Ok _ _ proj_Strings_inj _ _ _ Ha)).
  rewrite (Mem.bind_Ok _ _ _ _ _
    (Mem.len_Ok _ _ proj_URLs_inj _ _ _ Hb)).
  rewrite length_fmap.
  destruct (Nat.eqb_spec (length a) (length b)) as [Hlen|Hlen]; simpl.
  2: { by exists h. }
  destruct (Mem_make_Ok Mem.Strings "" (length a) h) as (aa & Haa & Hmk).
  rewrite (Mem.bind_Ok _ _ _ _ _ Hmk). clear Hmk.
  set (h1 := <[aa := _]> h).
  destruct (Mem_make_Ok Mem.URLs None (length b) h1) as (bb & Hbb & Hmk).
  rewrite (Mem.bind_Ok _ _ _ _ _ Hmk). clear Hmk.
  set (h2 := <[bb := _]> h1).
  assert (aa ≠ pa) as Hapa by congruence.
  assert (aa ≠ pb) as Hapb by congruence.
  assert (bb ≠ aa) as Hba.
  { intros ->. unfold h1 in Hbb. by rewrite lookup_insert_eq in Hbb. }
  assert (bb ≠ pa) as Hbpa.
  { intros ->. unfold h1 in Hbb. rewrite lookup_insert_ne in Hbb by done.
    congruence. }
  assert (bb ≠ pb) as Hbpb.
  { intros ->. unfold h1 in Hbb. rewrite lookup_insert_ne in Hbb by done.
    congruence. }
  erewrite Mem.bind_Ok; last first.
  { apply (Mem.copy_Ok _ _ proj_Strings_inj h2 aa pa
      (replicate (length a) "") a).
    - unfold h2, h1.
      by rewrite lookup_insert_ne, lookup_insert_eq by done.
    - unfold h2, h1. by rewrite !lookup_insert_ne by done.
    - by rewrite length_replicate. }
  set (h3 := <[aa := _]> h2).
  erewrite Mem.bind_Ok; last first.
  { apply (Mem.copy_Ok _ _ proj_URLs_inj h3 bb pb
      (replicate (length b) None) (Some <$> b)).
    - unfold h3, h2. by rewrite lookup_insert_ne, lookup_insert_eq by done.
    - unfold h3, h2, h1. by rewrite !lookup_insert_ne by done.
    - by rewrite length_replicate, length_fmap. }
  set (h4 := <[bb := _]> h3).
  erewrite Mem.bind_Ok; last first.
  { apply (Mem_sort_Strings_Ok h4 aa a).
    unfold h4, h3. by rewrite lookup_insert_ne, lookup_insert_eq by done. }
  set (h5 := <[aa := _]> h4).
  erewrite Mem.bind_Ok; last first.
  { apply (Mem_sort_SliceStable_Ok h5 bb b).
    unfold h5, h4. by rewrite lookup_insert_ne, lookup_insert_eq by done. }
  set (h6 := <[bb := _]> h5).
  assert (h6 !! aa = Some (Mem.Strings (sort_Strings a))) as Haa6.
  { unfold h6, h5. by rewrite lookup_insert_ne, lookup_insert_eq by done. }
  assert (h6 !! bb
          = Some (Mem.URLs
                    (Some <$> sort_SliceStable b (less_by URL_String))))
    as Hbb6.
  { unfold h6. by rewrite lookup_insert_eq. }
  rewrite (Mem.bind_Ok _ _ _ _ _
    (Mem.len_Ok _ _ proj_Strings_inj _ _ _ Haa6)).
  exists h6. split.
  - rewrite (Mem_range_loop_Ok h6 aa bb (sort_Strings a)
      (sort_SliceStable b (less_by URL_String))); [done..| |].
    + done.
    + unfold sort_Strings, sort_SliceStable.
      change String.ltb with (less_by (@id string)).
      by rewrite (insertion_sort_length id a),
        (insertion_sort_length URL_String b).
  - apply map_subseteq_spec. intros q arr Hq.
    assert (q ≠ aa) by congruence.
    assert (q ≠ bb).
    { intros ->. unfold h1 in Hbb. rewrite lookup_insert_ne in Hbb by done.
      congruence. }
    unfold h6, h5, h4, h3, h2, h1. by rewrite !lookup_insert_ne by done.
Qed.

(** C9. [identitiesMatch] changes neither of its input slices.  Whatever the
    memory and the two slices are, a run that ends leaves every array the
    memory held, the two inputs among them, element for element as it was:
    it sorts the two copies it makes.  And on a slice of strings and a
    slice of URIs the run does end, without a panic, with the result of
    the matcher on their contents. *)
Theorem identitiesMatch_inputs_unchanged (h : gmap nat Mem.array)
    (pa pb : nat) :
  (∀ r h', Mem.identitiesMatch URL_String pa pb h = Mem.Ok r h' →
     ∀ q arr, h !! q = Some arr → h' !! q = Some arr)
  ∧ (∀ (a : list string) (b : list URL),
       h !! pa = Some (Mem.Strings a) →
       h !! pb = Some (Mem.URLs (Some <$> b)) →
       ∃ h', Mem.identitiesMatch URL_String pa pb h
             = Mem.Ok (identitiesMatch URL_String a b) h'
             ∧ h' !! pa = Some (Mem.Strings a)
             ∧ h' !! pb = Some (Mem.URLs (Some <$> b))).
Proof.
  split.
  - intros r h'. apply Mem.identitiesMatch_frame.
  - intros a b Ha Hb.
    destruct (Mem_identitiesMatch_Ok h pa pb a b Ha Hb) as (h' & Hrun & _).
    exists h'. split; [done|].
    split; by apply (Mem.identitiesMatch_frame _ _ _ _ _ _ Hrun).
Qed.
(** ** Nil pointers and panics *)

Lemma bind_Panic {A B} (m : Mem.G (URL:=URL) A) (k : A → Mem.G B)
    (h : gmap nat Mem.array) (msg : string) :
  m h = Mem.Panic msg → (m ≫= k) h = Mem.Panic msg.
Proof. unfold mbind, Mem.G_bind. by intros ->. Qed.

Lemma less_closure_Ok (bb : nat) (h : gmap nat Mem.array)
    (l : list (option URL)) (i j : nat) (x y : option URL) :
  h !! bb = Some (Mem.URLs l) → l !! i = Some x → l !! j = Some y →
  is_Some x → is_Some y →
  less_closure bb i j h = Mem.Ok (less_by key_of_pointer x y) h.
Proof.
  intros Hp Hi Hj [u ->] [v ->]. unfold less_closure.
  rewrite (Mem.bind_Ok _ _ _ _ _
    (Mem.index_Ok _ _ proj_URLs_inj _ _ _ _ _ Hp Hi)). simpl.
  unfold mbind at 1, Mem.G_bind at 1, mret at 1, Mem.G_ret at 1.
  by rewrite (Mem.bind_Ok _ _ _ _ _
    (Mem.index_Ok _ _ proj_URLs_inj _ _ _ _ _ Hp Hj)).
Qed.

Lemma less_closure_nil_left (bb : nat) (h : gmap nat Mem.array)
    (l : list (option URL)) (i j : nat) :
  h !! bb = Some (Mem.URLs l) → l !! i = Some None →
  less_closure bb i j h = Mem.Panic "nil pointer dereference".
Proof.
  intros Hp Hi. unfold less_closure.
  by rewrite (Mem.bind_Ok _ _ _ _ _
    (Mem.index_Ok _ _ proj_URLs_inj _ _ _ _ _ Hp Hi)).
Qed.

Lemma less_closure_nil_right (bb : nat) (h : gmap nat Mem.array)
    (l : list (option URL)) (i j : nat) (u : URL) :
  h !! bb = Some (Mem.URLs l) → l !! i = Some (Some u) →
  l !! j = Some None →
  less_closure bb i j h = Mem.Panic "nil pointer dereference".
Proof.
  intros Hp Hi Hj. unfold less_closure.
  rewrite (Mem.bind_Ok _ _ _ _ _
    (Mem.index_Ok _ _ proj_URLs_inj _ _ _ _ _ Hp Hi)). simpl.
  unfold mbind at 1, Mem.G_bind at 1, mret at 1, Mem.G_ret at 1.
  by rewrite (Mem.bind_Ok _ _ _ _ _
    (Mem.index_Ok _ _ proj_URLs_inj _ _ _ _ _ Hp Hj)).
Qed.

(** A list of pointers holds no nil, or has a first one. *)
Lemma first_nil (b : list (option URL)) :
  (∃ us, b = Some <$> us)
  ∨ ∃ us post, b = ((Some <$> us) ++ None :: post)%list.
Proof.
  induction b as [|[u|] b IH].
  - left. by exists [].
  - destruct IH as [[us ->]|(us & post & ->)].
    + left. by exists (u :: us).
    + right. by exists (u :: us), post.
  - right. by exists [], b.
Qed.

(** Sorting a slice of two or more pointers one of which is nil panics:
    the comparison reaches the nil pointer. *)
Lemma Mem_sort_SliceStable_nil (h : gmap nat Mem.array) (bb : nat)
    (us : list URL) (post : list (option URL)) :
  h !! bb = Some (Mem.URLs ((Some <$> us) ++ None :: post)%list) →
  (2 ≤ length us + S (length post))%nat →
  Mem.sort_SliceStable bb (less_closure bb) h
  = Mem.Panic "nil pointer dereference".
Proof.
  intros Hp Hlen. unfold Mem.sort_SliceStable.
  rewrite (Mem.bind_Ok _ _ _ _ _
    (Mem.len_Ok Mem.URLs Mem.proj_URLs proj_URLs_inj _ _ _ Hp)).
  unfold Mem.insertionSort. rewrite length_app. simpl.
  destruct us as [|u us]; simpl in *.
  - destruct post as [|y post]; simpl in *; [lia|].
    apply bind_Panic. apply bind_Panic.
    destruct y as [v|].
    + by apply (less_closure_nil_right bb h _ 1 0 v Hp).
    + by apply (less_closure_nil_left bb h _ 1 0 Hp).
  - rewrite Nat.sub_0_r, Mem.insertion_outer_add.
    erewrite Mem.bind_Ok; last first.
    { apply (Mem.insertion_outer_prefix_Ok Mem.URLs bb key_of_pointer
        is_Some
        {| Mem.Less := less_closure bb;
           Mem.Swap := Mem.swap Mem.URLs Mem.proj_URLs bb |}
        (less_closure_Ok bb)
        (λ h l i j x y, Mem.swap_Ok _ _ proj_URLs_inj h bb l i j x y)
        (Some <$> us) [Some u] (None :: post) h Hp).
      - constructor; [by eexists|]. apply Forall_fmap, Forall_true.
        by eexists.
      - by repeat constructor. }
    simpl. apply bind_Panic. apply bind_Panic.
    eapply less_closure_nil_left; [apply lookup_insert_eq|].
    apply list_lookup_middle.
    rewrite (fold_insert_perm key_of_pointer), length_app. done.
Qed.

(** The run up to the second sort, on slices of equal length: the copies
    are made at two new addresses and the copy of the strings is sorted. *)
Lemma Mem_identitiesMatch_steps (h : gmap nat Mem.array) (pa pb : nat)
    (a : list string) (b : list (option URL)) :
  h !! pa = Some (Mem.Strings a) →
  h !! pb = Some (Mem.URLs b) →
  length a = length b →
  ∃ aa bb h5,
    h5 !! aa = Some (Mem.Strings (sort_Strings a))
    ∧ h5 !! bb = Some (Mem.URLs b)
    ∧ Mem.identitiesMatch URL_String pa pb h
      = (Mem.sort_SliceStable bb (less_closure bb);;
         n ← Mem.len Mem.proj_Strings aa;
         Mem.range_loop URL_String aa bb 0 n) h5.
Proof.
  intros Ha Hb Hlen. unfold Mem.identitiesMatch.
  rewrite (Mem.bind_Ok _ _ _ _ _
    (Mem.len_Ok _ _ proj_Strings_inj _ _ _ Ha)).
  rewrite (Mem.bind_Ok _ _ _ _ _
    (Mem.len_Ok _ _ proj_URLs_inj _ _ _ Hb)).
  rewrite Hlen, Nat.eqb_refl. simpl.
  destruct (Mem_make_Ok Mem.Strings "" (length b) h) as (aa & Haa & Hmk).
  rewrite (Mem.bind_Ok _ _ _ _ _ Hmk). clear Hmk.
  set (h1 := <[aa := _]> h).
  destruct (Mem_make_Ok Mem.URLs None (length b) h1) as (bb & Hbb & Hmk).
  rewrite (Mem.bind_Ok _ _ _ _ _ Hmk). clear Hmk.
  set (h2 := <[bb := _]> h1).
  assert (aa ≠ pa) as Hapa by congruence.
  assert (aa ≠ pb) as Hapb by congruence.
  assert (bb ≠ aa) as Hba.
  { intros ->. unfold h1 in Hbb. by rewrite lookup_insert_eq in Hbb. }
  assert (bb ≠ pa) as Hbpa.
  { intros ->. unfold h1 in Hbb. rewrite lookup_insert_ne in Hbb by done.
    congruence. }
  assert (bb ≠ pb) as Hbpb.
  { intros ->. unfold h1 in Hbb. rewrite lookup_insert_ne in Hbb by done.
    congruence. }
  erewrite Mem.bind_Ok; last first.
  { apply (Mem.copy_Ok _ _ proj_Strings_inj h2 aa pa
      (replicate (length b) "") a).
    - unfold h2, h1.
      by rewrite lookup_insert_ne, lookup_insert_eq by done.
    - unfold h2, h1. by rewrite !lookup_insert_ne by done.
    - by rewrite length_replicate. }
  set (h3 := <[aa := _]> h2).
  erewrite Mem.bind_Ok; last first.
  { apply (Mem.copy_Ok _ _ proj_URLs_inj h3 bb pb
      (replicate (length b) None) b).
    - unfold h3, h2. by rewrite lookup_insert_ne, lookup_insert_eq by done.
    - unfold h3, h2, h1. by rewrite !lookup_insert_ne by done.
    - by rewrite length_replicate. }
  set (h4 := <[bb := _]> h3).
  erewrite Mem.bind_Ok; last first.
  { apply (Mem_sort_Strings_Ok h4 aa a).
    unfold h4, h3. by rewrite lookup_insert_ne, lookup_insert_eq by done. }
  set (h5 := <[aa := _]> h4).
  exists aa, bb, h5. split_and!; [| |done].
  - unfold h5. by rewrite lookup_insert_eq.
  - unfold h5, h4. by rewrite lookup_insert_ne, lookup_insert_eq by done.
Qed.

(** X12. When [identitiesMatch] panics.  On slices of different lengths it
    returns false at once, without a panic and without touching the
    memory, whatever the pointers are.  On slices of equal length it
    panics exactly when one of the URI pointers is nil. *)
Theorem identitiesMatch_panics_iff (h : gmap nat Mem.array) (pa pb : nat)
    (a : list string) (b : list (option URL)) :
  h !! pa = Some (Mem.Strings a) →
  h !! pb = Some (Mem.URLs b) →
  (length a ≠ length b →
   Mem.identitiesMatch URL_String pa pb h = Mem.Ok false h)
  ∧ ((∃ msg, Mem.identitiesMatch URL_String pa pb h = Mem.Panic msg)
     ↔ length a = length b ∧ None ∈ b).
Proof.
  intros Ha Hb.
  assert (length a ≠ length b →
          Mem.identitiesMatch URL_String pa pb h = Mem.Ok false h) as Hne.
  { intros Hlen. unfold Mem.identitiesMatch.
    rewrite (Mem.bind_Ok _ _ _ _ _
      (Mem.len_Ok _ _ proj_Strings_inj _ _ _ Ha)).
    rewrite (Mem.bind_Ok _ _ _ _ _
      (Mem.len_Ok _ _ proj_URLs_inj _ _ _ Hb)).
    by destruct (Nat.eqb_spec (length a) (length b)). }
  split; [done|]. split.
  - intros [msg Hpanic].
    destruct (decide (length a = length b)) as [Hlen|Hlen].
    2: { rewrite (Hne Hlen) in Hpanic. done. }
    split; [done|].
    destruct (first_nil b) as [[us ->]|(us & post & ->)].
    + destruct (Mem_identitiesMatch_Ok h pa pb a us Ha Hb)
        as (h' & Hrun & _).
      rewrite Hrun in Hpanic. done.
    + apply elem_of_app. right. left.
  - intros [Hlen Hnil].
    destruct (first_nil b) as [[us ->]|(us & post & ->)].
    { by apply list_elem_of_fmap in Hnil as (u & ? & _). }
    destruct (Mem_identitiesMatch_steps h pa pb a _ Ha Hb Hlen)
      as (aa & bb & h5 & Haa & Hbb & ->).
    exists "nil pointer dereference".
    destruct (decide (2 ≤ length us + S (length post))%nat) as [H2|H2].
    { apply bind_Panic.
      apply (Mem_sort_SliceStable_nil h5 bb us post Hbb H2). }
    assert (us = [] ∧ post = []) as [-> ->].
    { destruct us, post; simpl in *; try done; lia. }
    destruct a as [|s [|s' a]]; try done.
    simpl in Hbb. change (sort_Strings [s]) with [s] in Haa.
    erewrite Mem.bind_Ok; last first.
    { unfold Mem.sort_SliceStable.
      by rewrite (Mem.bind_Ok _ _ _ _ _
        (Mem.len_Ok Mem.URLs Mem.proj_URLs proj_URLs_inj _ _ _ Hbb)). }
    rewrite (Mem.bind_Ok _ _ _ _ _
      (Mem.len_Ok _ _ proj_Strings_inj _ _ _ Haa)).
    simpl.
    rewrite (Mem.bind_Ok _ _ _ _ s
      (Mem.index_Ok _ _ proj_Strings_inj h5 aa [s] 0 s Haa eq_refl)).
    by rewrite (Mem.bind_Ok _ _ _ _ None
      (Mem.index_Ok _ _ proj_URLs_inj h5 bb [None] 0 None Hbb eq_refl)).
Qed.

End mem_facts.

(** ** A concrete deployment

    URIs are given by their canonical strings, errors by their texts.  Three
    authenticators: the first finds no credential, the second knows the
    workload [foo], the third would know another one.  The CSR parser
    knows a few CSRs by name; a CSR carries whether its signature holds. *)

Module Example.

Definition foo : string := "spiffe://cluster/ns/default/sa/foo".
Definition bar : string := "spiffe://cluster/ns/default/sa/bar".

Definition ImpersonatedIdentity : string := "ImpersonatedIdentity".

Abbreviation Csr_t := (@CertificateRequest string string bool).
Abbreviation Caller_t := (@Caller string).
Abbreviation Authenticator_t := (@Authenticator string unit string).
Abbreviation Server_t := (@Server string unit string).

Definition csr_of (uris ips emails : list string) (signed : bool) : Csr_t :=
  {| URIs := uris; IPAddresses := ips; EmailAddresses := emails;
     rest_of_csr := signed |}.

Definition ParsePemEncodedCSR (pem : string) : Csr_t + string :=
  if String.eqb pem "csr foo" then inl (csr_of [foo] [] [] true)
  else if String.eqb pem "csr foo with ip" then
    inl (csr_of [foo] ["10.0.0.1"] [] true)
  else if String.eqb pem "csr bar" then inl (csr_of [bar] [] [] true)
  else if String.eqb pem "csr foo unsigned" then
    inl (csr_of [foo] [] [] false)
  else inr "not a PEM block".

Definition CheckSignature (csr : Csr_t) : option string :=
  if rest_of_csr csr then None else Some "signature does not verify".

Definition ValidateCSRExtentions (csr : Csr_t) : option string := None.

Definition caller_foo : Caller_t :=
  {| Identities := [foo]; KubernetesInfo := "node-1" |}.
Definition caller_other : Caller_t :=
  {| Identities := ["spiffe://cluster/ns/default/sa/other"];
     KubernetesInfo := "node-2" |}.
Definition caller_nobody : Caller_t :=
  {| Identities := []; KubernetesInfo := "node-3" |}.

Definition no_credential : Authenticator_t :=
  {| Authenticate := λ _, inr "no credential" |}.
Definition knows_foo : Authenticator_t :=
  {| Authenticate := λ _, inl caller_foo |}.
Definition knows_other : Authenticator_t :=
  {| Authenticate := λ _, inl caller_other |}.
Definition knows_nobody : Authenticator_t :=
  {| Authenticate := λ _, inl caller_nobody |}.

(** The node authorizer lets [node-1] impersonate [bar] and nothing else. *)
Definition node_authorizer : @NodeAuthorizer string string :=
  {| authenticateImpersonation := λ k identity,
       if String.eqb k "node-1" && String.eqb identity bar then None
       else Some "not a trusted node" |}.

Definition server : Server_t :=
  {| authenticators := [no_credential; knows_foo; knows_other];
     nodeAuthorizer := None |}.
Definition server_with_authorizer : Server_t :=
  {| authenticators := [no_credential; knows_foo; knows_other];
     nodeAuthorizer := Some node_authorizer |}.
Definition server_locked : Server_t :=
  {| authenticators := [no_credential; no_credential];
     nodeAuthorizer := None |}.
Definition server_nobody : Server_t :=
  {| authenticators := [knows_nobody]; nodeAuthorizer := None |}.

Definition request (pem : string) : IstioCertificateRequest :=
  {| Csr := pem; ValidityDuration := 3600; Metadata := None |}.
Definition request_as (identity pem : string) : IstioCertificateRequest :=
  {| Csr := pem; ValidityDuration := 3600;
     Metadata :=
       Some {| Fields := {[ ImpersonatedIdentity := StringValue identity ]} |}
  |}.

Definition authRequest (s : Server_t) (icr : IstioCertificateRequest)
    : M event (string * bool) (string * bool) :=
  authRequest id ImpersonatedIdentity ParsePemEncodedCSR CheckSignature
    ValidateCSRExtentions s () icr.

End Example.

Example run_success :
  run (Example.authRequest Example.server (Example.request "csr foo"))
  = ((Example.foo, true),
     [call_Authenticate 0 {| GrpcContext := () |};
      call_Authenticate 1 {| GrpcContext := () |};
      call_ParsePemEncodedCSR "csr foo";
      call_CheckSignature (Example.csr_of [Example.foo] [] [] true);
      call_ValidateCSRExtentions (Example.csr_of [Example.foo] [] [] true);
      call_identitiesMatch [Example.foo] [Example.foo]]).
Proof. vm_compute. reflexivity. Qed.

Example run_mismatch :
  returns (Example.authRequest Example.server (Example.request "csr bar"))
  = (Example.foo, false).
Proof. vm_compute. reflexivity. Qed.

Example run_impersonation :
  returns (Example.authRequest Example.server_with_authorizer
             (Example.request_as Example.bar "csr bar"))
  = (Example.bar, true).
Proof. vm_compute. reflexivity. Qed.

Example run_impersonation_denied :
  returns (Example.authRequest Example.server_with_authorizer
             (Example.request_as Example.foo "csr foo"))
  = ("", false).
Proof. vm_compute. reflexivity. Qed.

(** ** The claims at the concrete deployment *)

Lemma first_fails :
  Forall (fails (error:=string) ()) [Example.no_credential].
Proof. repeat constructor. by exists "no credential". Qed.

Lemma authRequest_end_to_end_success_witness :
  returns (Example.authRequest Example.server (Example.request "csr foo"))
  = ("spiffe://cluster/ns/default/sa/foo", true).
Proof.
  apply (authRequest_end_to_end_success id Example.ImpersonatedIdentity
    Example.ParsePemEncodedCSR Example.CheckSignature
    Example.ValidateCSRExtentions Example.server ()
    (Example.request "csr foo") 1 Example.knows_foo
    Example.caller_foo (Example.csr_of [Example.foo] [] [] true));
    try reflexivity.
  vm_compute. apply list_elem_of_further, list_elem_of_here.
Defined.

Lemma authRequest_forbidden_san_witness :
  (returns (Example.authRequest Example.server
              (Example.request "csr foo with ip"))).2 = false.
Proof.
  apply (authRequest_forbidden_san id Example.ImpersonatedIdentity
    Example.ParsePemEncodedCSR Example.CheckSignature
    Example.ValidateCSRExtentions Example.server ()
    (Example.request "csr foo with ip")
    (Example.csr_of [Example.foo] ["10.0.0.1"] [] true)).
  - reflexivity.
  - left. discriminate.
Defined.

Lemma authRequest_impersonation_not_configured_witness :
  returns (Example.authRequest Example.server
             (Example.request_as Example.bar "csr bar"))
  = ("", false)
  ∧ run (Example.authRequest Example.server
           (Example.request_as Example.bar "anything else"))
    = run (Example.authRequest Example.server
             (Example.request_as Example.bar "csr bar")).
Proof.
  destruct (authRequest_impersonation_not_configured id
    Example.ImpersonatedIdentity Example.ParsePemEncodedCSR
    Example.CheckSignature Example.ValidateCSRExtentions Example.server ()
    (Example.request_as Example.bar "csr bar")) as (Hret & _ & Hsame).
  - vm_compute. discriminate.
  - reflexivity.
  - split; [exact Hret|]. apply Hsame. reflexivity.
Defined.

Lemma authenticator_chain_first_success_witness :
  events (Example.authRequest Example.server (Example.request "csr foo"))
  = (calls () 0 2
     ++ events (authorize id Example.ImpersonatedIdentity
                  Example.ParsePemEncodedCSR Example.CheckSignature
                  Example.ValidateCSRExtentions Example.server
                  (Example.request "csr foo") Example.caller_foo))%list.
Proof.
  destruct (proj1 (authenticator_chain_first_success id
    Example.ImpersonatedIdentity Example.ParsePemEncodedCSR
    Example.CheckSignature Example.ValidateCSRExtentions Example.server ()
    (Example.request "csr foo"))
    [Example.no_credential] Example.knows_foo [Example.knows_other]
    Example.caller_foo) as (_ & _ & Hevents & _);
    first [reflexivity | exact first_fails | exact Hevents].
Defined.

Lemma authRequest_identity_after_resolution_witness :
  (returns (Example.authRequest Example.server
              (Example.request "csr foo unsigned"))).1
  = "spiffe://cluster/ns/default/sa/foo".
Proof.
  apply (authRequest_identity_after_resolution id
    Example.ImpersonatedIdentity Example.ParsePemEncodedCSR
    Example.CheckSignature Example.ValidateCSRExtentions Example.server ()
    (Example.request "csr foo unsigned")
    [Example.no_credential] Example.knows_foo [Example.knows_other]
    Example.caller_foo); first [reflexivity | exact first_fails | idtac].
  - discriminate.
  - left. reflexivity.
Defined.

Lemma authRequest_all_authenticators_fail_witness :
  returns (Example.authRequest Example.server_locked
             (Example.request "csr foo"))
  = ("", false).
Proof.
  apply (authRequest_all_authenticators_fail id
    Example.ImpersonatedIdentity Example.ParsePemEncodedCSR
    Example.CheckSignature Example.ValidateCSRExtentions
    Example.server_locked () (Example.request "csr foo")).
  repeat constructor; by exists "no credential".
Defined.

Lemma authRequest_impersonation_denied_witness :
  returns (Example.authRequest Example.server_with_authorizer
             (Example.request_as Example.foo "csr foo"))
  = ("", false).
Proof.
  apply (authRequest_impersonation_denied id
    Example.ImpersonatedIdentity Example.ParsePemEncodedCSR
    Example.CheckSignature Example.ValidateCSRExtentions
    Example.server_with_authorizer ()
    (Example.request_as Example.foo "csr foo")
    [Example.no_credential] Example.knows_foo [Example.knows_other]
    Example.caller_foo Example.node_authorizer "not a trusted node");
    first [reflexivity | exact first_fails | idtac].
  vm_compute. discriminate.
Defined.

Lemma identitiesMatch_inputs_unchanged_witness :
  ∃ h', Mem.identitiesMatch id 0 1
          (<[0 := Mem.Strings ["b"; "a"]]>
             (<[1 := Mem.URLs [Some "a"; Some "b"]]> ∅))
        = Mem.Ok true h'
        ∧ h' !! 0 = Some (Mem.Strings ["b"; "a"])
        ∧ h' !! 1 = Some (Mem.URLs [Some "a"; Some "b"]).
Proof.
  apply (proj2 (identitiesMatch_inputs_unchanged (@id string)
    (<[0 := Mem.Strings ["b"; "a"]]>
       (<[1 := Mem.URLs [Some "a"; Some "b"]]> ∅)) 0 1)
    ["b"; "a"] ["a"; "b"]); reflexivity.
Defined.

Lemma identitiesMatch_empty_unreachable_witness :
  run (Example.authRequest Example.server_nobody (Example.request "csr foo"))
  = (("", false),
     [call_Authenticate 0 {| GrpcContext := () |};
      log_Error s_log (errors_New "request sent with no identity") ""]).
Proof.
  apply (proj2 (proj2 (identitiesMatch_empty_unreachable id
    Example.ImpersonatedIdentity Example.ParsePemEncodedCSR
    Example.CheckSignature Example.ValidateCSRExtentions
    Example.server_nobody () (Example.request "csr foo")))
    [] Example.knows_nobody [] Example.caller_nobody);
    first [reflexivity | constructor].
Defined.

(** ** The further properties at the concrete deployment *)

(** A caller with other identities on the same node as [caller_foo] *)
Definition caller_other_on_node_1 : Example.Caller_t :=
  {| Identities := ["spiffe://cluster/ns/default/sa/other"];
     KubernetesInfo := "node-1" |}.
Definition server_other_on_node_1 : Example.Server_t :=
  {| authenticators :=
       [Example.no_credential; {| Authenticate := λ _, inl caller_other_on_node_1 |}];
     nodeAuthorizer := Some Example.node_authorizer |}.

(** The request for [foo] once more, with another validity duration and
    metadata that does not name an impersonated identity *)
Definition request_with_other_metadata : IstioCertificateRequest :=
  {| Csr := "csr foo"; ValidityDuration := 60;
     Metadata := Some {| Fields := {[ "ClusterID" := StringValue "c1";
                                       "Verbose" := BoolValue true ]} |} |}.

Lemma identitiesMatch_app_witness :
  identitiesMatch id (["a"] ++ ["c"; "b"]) (["a"] ++ ["b"; "c"])
  = identitiesMatch id ["c"; "b"] ["b"; "c"].
Proof.
  apply (identitiesMatch_app id ["a"] ["c"; "b"] ["a"] ["b"; "c"]).
  reflexivity.
Defined.

Lemma authRequest_authorized_iff_witness :
  returns (Example.authRequest Example.server_with_authorizer
             (Example.request_as Example.bar "csr bar"))
  = (resolved_identity Example.ImpersonatedIdentity Example.caller_foo
       (Example.request_as Example.bar "csr bar"), true).
Proof.
  apply (proj2 (authRequest_authorized_iff id Example.ImpersonatedIdentity
    Example.ParsePemEncodedCSR Example.CheckSignature
    Example.ValidateCSRExtentions Example.server_with_authorizer ()
    (Example.request_as Example.bar "csr bar"))
    [Example.no_credential] Example.knows_foo [Example.knows_other]
    Example.caller_foo (Example.csr_of [Example.bar] [] [] true));
    first [reflexivity | exact first_fails | idtac].
  - discriminate.
  - right. exists Example.node_authorizer. split; reflexivity.
  - repeat split; reflexivity.
Defined.

Lemma authRequest_identity_nonempty_witness :
  ∃ failed a later caller,
    authenticators Example.server = (failed ++ a :: later)%list
    ∧ Forall (fails ()) failed
    ∧ succeeds () a caller
    ∧ Identities caller ≠ []
    ∧ impersonation_resolved Example.ImpersonatedIdentity Example.server
        caller (Example.request "csr bar")
    ∧ (returns (Example.authRequest Example.server
                  (Example.request "csr bar"))).1
      = resolved_identity Example.ImpersonatedIdentity caller
          (Example.request "csr bar").
Proof.
  apply (authRequest_identity_nonempty id Example.ImpersonatedIdentity
    Example.ParsePemEncodedCSR Example.CheckSignature
    Example.ValidateCSRExtentions Example.server ()
    (Example.request "csr bar")).
  vm_compute. discriminate.
Defined.

Lemma authRequest_impersonation_ignores_identities_witness :
  run (Example.authRequest Example.server_with_authorizer
         (Example.request_as Example.bar "csr bar"))
  = run (Example.authRequest server_other_on_node_1
           (Example.request_as Example.bar "csr bar")).
Proof.
  apply (authRequest_impersonation_ignores_identities id
    Example.ImpersonatedIdentity Example.ParsePemEncodedCSR
    Example.CheckSignature Example.ValidateCSRExtentions
    Example.server_with_authorizer server_other_on_node_1 ()
    (Example.request_as Example.bar "csr bar")
    [Example.no_credential] [Example.no_credential]
    Example.knows_foo {| Authenticate := λ _, inl caller_other_on_node_1 |}
    [Example.knows_other] [] Example.caller_foo caller_other_on_node_1);
    first [reflexivity | exact first_fails | idtac].
  - vm_compute. discriminate.
  - discriminate.
  - discriminate.
Defined.

Lemma authRequest_reads_csr_and_impersonation_witness :
  run (Example.authRequest Example.server (Example.request "csr foo"))
  = run (Example.authRequest Example.server request_with_other_metadata).
Proof.
  apply (authRequest_reads_csr_and_impersonation id
    Example.ImpersonatedIdentity Example.ParsePemEncodedCSR
    Example.CheckSignature Example.ValidateCSRExtentions Example.server ()
    (Example.request "csr foo") request_with_other_metadata).
  - reflexivity.
  - vm_compute. reflexivity.
Defined.

Lemma authRequest_denial_logged_witness :
  ∃ e, last (events (Example.authRequest Example.server
                       (Example.request "csr bar"))) = Some e
       ∧ is_denial_log e = true.
Proof.
  apply (proj1 (authRequest_denial_logged id Example.ImpersonatedIdentity
    Example.ParsePemEncodedCSR Example.CheckSignature
    Example.ValidateCSRExtentions Example.server ()
    (Example.request "csr bar"))).
  reflexivity.
Defined.

Lemma authRequest_matcher_arguments_witness :
  ∃ failed a later caller csr,
    authenticators Example.server = (failed ++ a :: later)%list
    ∧ Forall (fails ()) failed
    ∧ succeeds () a caller
    ∧ Identities caller ≠ []
    ∧ impersonation_resolved Example.ImpersonatedIdentity Example.server
        caller (Example.request "csr foo")
    ∧ [Example.foo]
      = expected_identities Example.ImpersonatedIdentity caller
          (Example.request "csr foo")
    ∧ Example.ParsePemEncodedCSR (GetCsr (Example.request "csr foo"))
      = inl csr
    ∧ Example.CheckSignature csr = None
    ∧ IPAddresses csr = [] ∧ EmailAddresses csr = []
    ∧ Example.ValidateCSRExtentions csr = None
    ∧ [Example.foo] = URIs csr.
Proof.
  apply (authRequest_matcher_arguments id Example.ImpersonatedIdentity
    Example.ParsePemEncodedCSR Example.CheckSignature
    Example.ValidateCSRExtentions Example.server ()
    (Example.request "csr foo") [Example.foo] [Example.foo]).
  vm_compute. do 5 apply list_elem_of_further. apply list_elem_of_here.
Defined.

Lemma authRequest_node_authorizer_arguments_witness :
  ∃ failed a later caller,
    authenticators Example.server_with_authorizer
    = (failed ++ a :: later)%list
    ∧ Forall (fails ()) failed
    ∧ succeeds () a caller
    ∧ Identities caller ≠ []
    ∧ impersonated Example.ImpersonatedIdentity
        (Example.request_as Example.bar "csr bar") ≠ ""
    ∧ (∃ na, nodeAuthorizer Example.server_with_authorizer = Some na)
    ∧ "node-1" = KubernetesInfo caller
    ∧ Example.bar
      = impersonated Example.ImpersonatedIdentity
          (Example.request_as Example.bar "csr bar").
Proof.
  apply (authRequest_node_authorizer_arguments id
    Example.ImpersonatedIdentity Example.ParsePemEncodedCSR
    Example.CheckSignature Example.ValidateCSRExtentions
    Example.server_with_authorizer ()
    (Example.request_as Example.bar "csr bar") "node-1" Example.bar).
  vm_compute. do 3 apply list_elem_of_further. apply list_elem_of_here.
Defined.

Lemma identitiesMatch_panics_iff_witness :
  ∃ msg,
    Mem.identitiesMatch id 0 1
      (<[0 := Mem.Strings ["b"; "a"]]>
         (<[1 := Mem.URLs [Some "a"; None]]> ∅))
    = Mem.Panic msg.
Proof.
  destruct (identitiesMatch_panics_iff (@id string)
    (<[0 := Mem.Strings ["b"; "a"]]>
       (<[1 := Mem.URLs [Some "a"; None]]> ∅))
    0 1 ["b"; "a"] [Some "a"; None]) as [_ [_ Hpanic]].
  - reflexivity.
  - reflexivity.
  - apply Hpanic. split; [reflexivity|].
    apply list_elem_of_further, list_elem_of_here.
Defined.
